(** * The crossword CSP solver of [generate.py]

    A shallow embedding of the class [CrosswordCreator]: node consistency,
    arc consistency (AC-3), the search heuristics, the consistency predicate
    the backtracking search and the grid of letters of [letter_grid],
    followed by the properties of the solver.

    Conventions of the embedding.
    - A Python [set] is the list of its elements in iteration order;
      [s.remove(w)] takes the element out and raises [KeyError] when it is
      absent. Python fixes no iteration order for a set: the order of the
      vocabulary and of the variables is part of the input here, and a set
      that the code builds from another one is iterated in the order of
      the one it is built from.
    - A Python [dict] is an association list in insertion order (the order
      Python iterates in); a lookup of an absent key raises [KeyError].
    - A Python exception is the outcome [Raise e]. The loop of AC-3 and the
      recursion of the search run on fuel; a run that is cut by its fuel is
      the outcome [Timeout], which [solve] never has ([solve_returns]).
    - A method of the class reads [self.crossword] and [self.domains]: here
      it takes the crossword [cw] and the domain store [d], and returns the
      new store next to its value when it mutates it. [letter_grid] reads
      only the height and the width of the crossword, and takes them as
      arguments. *)

From Stdlib Require Import String Ascii Lia.
From stdpp Require Import base list strings.

Open Scope string_scope.
Open Scope list_scope.

(** ** Outcomes of a Python computation *)

Inductive exn := IndexError | KeyError | TypeError | ValueError.

Inductive result (A : Type) : Type :=
| Ok (a : A)
| Raise (e : exn)
| Timeout.

Arguments Ok {A} a.
Arguments Raise {A} e.
Arguments Timeout {A}.

#[global] Instance result_ret : MRet result := fun A a => Ok a.
#[global] Instance result_bind : MBind result := fun A B f m =>
  match m with
  | Ok a => f a
  | Raise e => Raise e
  | Timeout => Timeout
  end.

#[global] Instance exn_eq_dec : EqDecision exn.
Proof. solve_decision. Defined.

(** ** The puzzle model

    [crossword.py] is not among the sources; the solver only uses the
    interface below. *)

Inductive Direction := ACROSS | DOWN.

#[global] Instance Direction_eq_dec : EqDecision Direction.
Proof. solve_decision. Defined.

(** Modelled from the spec: the class [Variable] of [crossword.py] (a slot:
    starting row, starting column, direction, length; equality is
    structural). *)
Record Var := mkVar {
  var_i : nat;
  var_j : nat;
  var_direction : Direction;
  var_length : nat
}.

#[global] Instance Var_eq_dec : EqDecision Var.
Proof. solve_decision. Defined.

Definition Word := string.

(** Modelled from the spec: the class [Crossword] of [crossword.py]: the
    variables, the vocabulary, and the table [overlaps], which gives for a
    pair of variables either no overlap ([None]) or the pair of character
    indices of the shared cell. *)
Record Crossword := mkCrossword {
  variables : list Var;
  words : list Word;
  overlaps : Var -> Var -> option (nat * nat)
}.

(** Modelled from the spec: the method [Crossword.neighbors] of
    [crossword.py]: the variables, other than [var], that overlap [var]. *)
Definition neighbors (cw : Crossword) (var : Var) : list Var :=
  filter (fun v => v ≠ var ∧ is_Some (overlaps cw v var)) (variables cw).

(** ** Strings, sets and dictionaries of Python *)

(** [w[k]]: the character at index [k], [IndexError] out of range. *)
Definition str_index (w : Word) (k : nat) : result ascii :=
  match String.get k w with
  | Some c => Ok c
  | None => Raise IndexError
  end.

(** [len(w)] *)
Definition len (w : Word) : nat := String.length w.

(** The list without the first occurrence of [w]. *)
Fixpoint remove_first (w : Word) (s : list Word) : list Word :=
  match s with
  | [] => []
  | w' :: s' => if decide (w' = w) then s' else w' :: remove_first w s'
  end.

(** [s.remove(w)] on a set. *)
Definition set_remove (w : Word) (s : list Word) : result (list Word) :=
  if decide (w ∈ s) then Ok (remove_first w s) else Raise KeyError.

(** A dictionary with keys [K] and values [V]. *)
Abbreviation dict K V := (list (K * V)) (only parsing).

Section Dict.
Context {K V : Type} `{EqDecision K}.

(** [d.keys()] *)
Definition dict_keys (d : dict K V) : list K := d.*1.

(** [d.values()] *)
Definition dict_values (d : dict K V) : list V := d.*2.

(** [d.get(k)] *)
Fixpoint dict_get (d : dict K V) (k : K) : option V :=
  match d with
  | [] => None
  | (k', v) :: d' => if decide (k' = k) then Some v else dict_get d' k
  end.

(** [d[k]] *)
Definition dict_lookup (d : dict K V) (k : K) : result V :=
  match dict_get d k with
  | Some v => Ok v
  | None => Raise KeyError
  end.

(** The entry of a present key [k] overwritten in place. *)
Fixpoint dict_replace (d : dict K V) (k : K) (v : V) : dict K V :=
  match d with
  | [] => []
  | (k', v') :: d' =>
      if decide (k' = k) then (k', v) :: d'
      else (k', v') :: dict_replace d' k v
  end.

(** [d[k] = v]: overwrite in place, or insert at the end. *)
Definition dict_set (d : dict K V) (k : K) (v : V) : dict K V :=
  match dict_get d k with
  | Some _ => dict_replace d k v
  | None => d ++ [(k, v)]
  end.

(** The dictionary without its entries for [k]. *)
Definition dict_without (d : dict K V) (k : K) : dict K V :=
  filter (fun kv => kv.1 ≠ k) d.

(** [del d[k]] *)
Definition dict_del (d : dict K V) (k : K) : result (dict K V) :=
  match dict_get d k with
  | Some _ => Ok (dict_without d k)
  | None => Raise KeyError
  end.
End Dict.

(** ** The state of a [CrosswordCreator] *)

(** [self.domains]: variable to set of candidate words. *)
Abbreviation Domains := (dict Var (list Word)) (only parsing).

(** An assignment: variable to word. *)
Abbreviation Assignment := (dict Var Word) (only parsing).

(** [__init__]: every variable starts with a copy of the vocabulary. *)
Definition init_domains (cw : Crossword) : Domains :=
  foldl (fun d var => dict_set d var (words cw)) [] (variables cw).

(** ** Node consistency *)

(** The inner loop of [enforce_node_consistency]: [copy] is what is left of
    [self.domains[key].copy()], [s] the set [self.domains[key]]. *)
Fixpoint enforce_values (key : Var) (copy s : list Word) : result (list Word) :=
  match copy with
  | [] => Ok s
  | value :: copy' =>
      if decide (var_length key ≠ len value)
      then s' ← set_remove value s; enforce_values key copy' s'
      else enforce_values key copy' s
  end.

(** The outer loop, over the keys of [self.domains]. *)
Fixpoint enforce_keys (ks : list Var) (d : Domains) : result Domains :=
  match ks with
  | [] => Ok d
  | key :: ks' =>
      s ← dict_lookup d key;
      s' ← enforce_values key s s;
      enforce_keys ks' (dict_replace d key s')
  end.

Definition enforce_node_consistency (d : Domains) : result Domains :=
  enforce_keys (dict_keys d) d.

Section Solver.
Context (cw : Crossword).

(** ** Arc consistency: [revise] *)

(** The inner [for val_y in self.domains[y]] of [revise]: [true] when the
    loop left through [break], [false] when it ran to its end (the [else]
    of the [for]). *)
Fixpoint has_support (val_x : Word) (i j : nat) (dy : list Word) : result bool :=
  match dy with
  | [] => Ok false
  | val_y :: dy' =>
      a ← str_index val_x i;
      b ← str_index val_y j;
      if decide (a = b) then Ok true else has_support val_x i j dy'
  end.

(** The outer [for val_x in self.domains[x]], on the list [remove] and the
    flag [revised]. *)
Fixpoint revise_scan (i j : nat) (dx dy remove : list Word) (revised : bool)
  : result (list Word * bool) :=
  match dx with
  | [] => Ok (remove, revised)
  | val_x :: dx' =>
      b ← has_support val_x i j dy;
      if b : bool then revise_scan i j dx' dy remove revised
      else revise_scan i j dx' dy (remove ++ [val_x]) true
  end.

(** [for word in remove: self.domains[x].remove(word)] *)
Fixpoint remove_words (remove s : list Word) : result (list Word) :=
  match remove with
  | [] => Ok s
  | word :: remove' => s' ← set_remove word s; remove_words remove' s'
  end.

(** [revise(x, y)]: the returned boolean and the domain store after the
    call. The set [self.domains[y]] is read once, before the scan: the
    store does not change until the scan is over. *)
Definition revise (d : Domains) (x y : Var) : result (bool * Domains) :=
  match overlaps cw x y with
  | None => Ok (false, d)
  | Some (i, j) =>
      dx ← dict_lookup d x;
      dy ← dict_lookup d y;
      '(remove, revised) ← revise_scan i j dx dy [] false;
      s ← remove_words remove dx;
      Ok (revised, dict_replace d x s)
  end.

(** ** Arc consistency: [ac3] *)

(** The initial queue when no arcs are given: all pairs of distinct keys
    of [self.domains]. *)
Definition all_arcs (d : Domains) : list (Var * Var) :=
  x ← dict_keys d; y ← dict_keys d; if decide (x ≠ y) then [(x, y)] else [].

(** The [while queue] loop; an arc of the queue is a pair, never [None]. *)
Fixpoint ac3_loop (fuel : nat) (d : Domains) (queue : list (Var * Var))
  : result (bool * Domains) :=
  match fuel with
  | 0 => Timeout
  | S fuel' =>
      match queue with
      | [] => Ok (true, d)
      | (X, Y) :: queue' =>
          '(revised, d') ← revise d X Y;
          if revised : bool then
            dX ← dict_lookup d' X;
            if decide (length dX = 0) then Ok (false, d')
            else
              let added := (fun Z => (Z, X)) <$> filter (fun Z => Z ≠ Y) (neighbors cw X) in
              ac3_loop fuel' d' (queue' ++ added)
          else ac3_loop fuel' d' queue'
      end
  end.

(** The number of candidate words in the store. *)
Definition total_size (d : Domains) : nat := sum_list (length <$> dict_values d).

(** Iterations that the loop cannot exceed: each one takes an arc from the
    queue, and only one that shrinks a domain adds arcs, at most one per
    variable. *)
Definition ac3_fuel (d : Domains) (queue : list (Var * Var)) : nat :=
  S (length queue + total_size d * length (variables cw)).

(** [ac3(arcs)]; [arcs] is [None] or a dictionary keyed by arcs. *)
Definition ac3 (d : Domains) (arcs : option (dict (Var * Var) unit))
  : result (bool * Domains) :=
  let queue :=
    match arcs with
    | Some (_ :: _ as a) => dict_keys a
    | _ => all_arcs d
    end in
  ac3_loop (ac3_fuel d queue) d queue.

(** ** The search *)

(** [assignment_complete] *)
Definition assignment_complete (d : Domains) (assignment : Assignment) : bool :=
  forallb (fun domain => bool_decide (domain ∈ dict_keys assignment)) (dict_keys d).

(** The innermost loop of [consistent], over [self.domains[n]]: [false]
    when it leaves through [return False]. *)
Fixpoint check_n_vals (assignment : Assignment) (key : Var) (i j : nat)
    (dn : list Word) : result bool :=
  match dn with
  | [] => Ok true
  | n_val :: dn' =>
      w ← dict_lookup assignment key;
      a ← str_index w i;
      b ← str_index n_val j;
      if decide (a ≠ b) then Ok false else check_n_vals assignment key i j dn'
  end.

(** The loop of [consistent] over the neighbors of [key]; unpacking an
    absent overlap raises [TypeError]. *)
Fixpoint check_neighbors (d : Domains) (assignment : Assignment) (key : Var)
    (ns : list Var) : result bool :=
  match ns with
  | [] => Ok true
  | n :: ns' =>
      match overlaps cw key n with
      | None => Raise TypeError
      | Some (i, j) =>
          dn ← dict_lookup d n;
          ok ← check_n_vals assignment key i j dn;
          if ok : bool then check_neighbors d assignment key ns' else Ok false
      end
  end.

(** The loop of [consistent] over [assignment.items()]. *)
Fixpoint consistent_items (d : Domains) (assignment : Assignment)
    (items : list (Var * Word)) (value_list : list Word) : result bool :=
  match items with
  | [] => Ok true
  | (key, value) :: items' =>
      if decide (var_length key ≠ len value) then Ok false
      else if decide (value ∈ value_list) then Ok false
      else
        ok ← check_neighbors d assignment key (neighbors cw key);
        if ok : bool then consistent_items d assignment items' (value_list ++ [value])
        else Ok false
  end.

Definition consistent (d : Domains) (assignment : Assignment) : result bool :=
  consistent_items d assignment assignment [].

(** ** The heuristics *)

(** [val in assignment] for a word [val]: the keys of an assignment are
    variables, and a word is equal to none of them. *)
Definition word_in_assignment (val : Word) (assignment : Assignment) : bool := false.

(** The innermost loop of [order_domain_values]: [values[val] += 1] for
    every word of the neighbor's domain that is [val]. *)
Fixpoint count_n_vals (val : Word) (dn : list Word) (values : dict Word nat)
  : result (dict Word nat) :=
  match dn with
  | [] => Ok values
  | n_val :: dn' =>
      if decide (val = n_val)
      then c ← dict_lookup values val; count_n_vals val dn' (dict_set values val (c + 1))
      else count_n_vals val dn' values
  end.

(** The loop over the neighbors of [var]. *)
Fixpoint count_neighbors (d : Domains) (val : Word) (ns : list Var)
    (values : dict Word nat) : result (dict Word nat) :=
  match ns with
  | [] => Ok values
  | neighbor :: ns' =>
      dn ← dict_lookup d neighbor;
      values' ← count_n_vals val dn values;
      count_neighbors d val ns' values'
  end.

(** The loop over [self.domains[var]]. *)
Fixpoint order_values_loop (d : Domains) (var : Var) (assignment : Assignment)
    (dv : list Word) (values : dict Word nat) : result (dict Word nat) :=
  match dv with
  | [] => Ok values
  | val :: dv' =>
      let values := dict_set values val 0 in
      if word_in_assignment val assignment
      then order_values_loop d var assignment dv' values
      else
        values' ← count_neighbors d val (neighbors cw var) values;
        order_values_loop d var assignment dv' values'
  end.

(** [sorted(values, key=lambda x: values[x])]: the keys in ascending order
    of their value, keys of equal value in the order of the dictionary. *)
Fixpoint insert_by_value (kv : Word * nat) (l : list (Word * nat)) : list (Word * nat) :=
  match l with
  | [] => [kv]
  | kv' :: l' => if decide (kv.2 < kv'.2) then kv :: l else kv' :: insert_by_value kv l'
  end.

Definition sorted (values : dict Word nat) : list Word :=
  (foldl (fun acc kv => insert_by_value kv acc) [] values).*1.

(** [order_domain_values(var, assignment)]: the dictionary [values], word
    to score. The list that [sorted] builds is dropped. *)
Definition order_domain_values (d : Domains) (var : Var) (assignment : Assignment)
  : result (dict Word nat) :=
  dv ← dict_lookup d var;
  values ← order_values_loop d var assignment dv [];
  let _ := sorted values in
  Ok values.

(** [min(l)] and [max(l)]: [ValueError] on an empty sequence. *)
Definition py_min (l : list nat) : result nat :=
  match l with
  | [] => Raise ValueError
  | n :: l' => Ok (foldl Nat.min n l')
  end.

Definition py_max (l : list nat) : result nat :=
  match l with
  | [] => Raise ValueError
  | n :: l' => Ok (foldl Nat.max n l')
  end.

(** [l[0]] *)
Definition first {A} (l : list A) : result A :=
  match l with
  | [] => Raise IndexError
  | a :: _ => Ok a
  end.

(** [remaining_values], filled by the loop over [unassigned]. *)
Fixpoint count_remaining (d : Domains) (unassigned : list Var)
    (remaining_values : dict Var nat) : result (dict Var nat) :=
  match unassigned with
  | [] => Ok remaining_values
  | var :: unassigned' =>
      s ← dict_lookup d var;
      count_remaining d unassigned' (dict_set remaining_values var (length s))
  end.

(** [select_unassigned_variable(assignment)]; the set [all - assigned] is
    iterated in the order of [all]. *)
Definition select_unassigned_variable (d : Domains) (assignment : Assignment)
  : result Var :=
  let all := dict_keys d in
  let assigned := dict_keys assignment in
  let unassigned := filter (fun var => var ∉ assigned) all in
  remaining_values ← count_remaining d unassigned [];
  min_val ← py_min (dict_values remaining_values);
  let keys := (filter (fun kv => kv.2 = min_val) remaining_values).*1 in
  if decide (length keys = 1) then first keys
  else
    let degree_check :=
      foldl (fun dc key => dict_set dc key (length (neighbors cw key))) [] keys in
    max_val ← py_max (dict_values degree_check);
    let keys := (filter (fun kv => kv.2 = max_val) degree_check).*1 in
    first keys.

(** ** Backtracking *)

(** The loop [for val in self.order_domain_values(var, assignment)] of
    [backtrack], with [recurse] for the recursive call. The dictionary
    [assignment] is shared by all the calls and mutated in place: the
    outcome is the returned value ([None], or the dictionary itself) and
    the dictionary as the loop leaves it. *)
Fixpoint try_values
    (recurse : Assignment -> result (option Assignment * Assignment))
    (d : Domains) (var : Var) (vals : list Word) (assignment : Assignment)
  : result (option Assignment * Assignment) :=
  match vals with
  | [] => Ok (None, assignment)
  | val :: vals' =>
      let assignment := dict_set assignment var val in
      c ← consistent d assignment;
      if c : bool then
        '(res, assignment) ← recurse assignment;
        match res with
        | Some r => Ok (Some r, assignment)
        | None =>
            assignment ← dict_del assignment var;
            try_values recurse d var vals' assignment
        end
      else
        assignment ← dict_del assignment var;
        try_values recurse d var vals' assignment
  end.

(** [backtrack(assignment)]: the returned value and the dictionary
    [assignment] as the call leaves it. [fuel] bounds the depth of the
    recursion. *)
Fixpoint backtrack (fuel : nat) (d : Domains) (assignment : Assignment)
  : result (option Assignment * Assignment) :=
  match fuel with
  | 0 => Timeout
  | S fuel' =>
      if assignment_complete d assignment then Ok (Some assignment, assignment)
      else
        var ← select_unassigned_variable d assignment;
        values ← order_domain_values d var assignment;
        try_values (backtrack fuel' d) d var (dict_keys values) assignment
  end.

(** The recursion goes one level down per assigned variable. *)
Definition backtrack_fuel (d : Domains) : nat := S (length d).
End Solver.

(** ** [solve] *)

(** The methods that [solve] calls. *)
Inductive call := call_enforce_node_consistency | call_ac3 | call_backtrack.

(** A run of [solve()]: the calls it made, in order, and its outcome. *)
Record run := mkRun {
  calls : list call;
  outcome : result (option Assignment)
}.

Definition solve_run (cw : Crossword) : run :=
  match enforce_node_consistency (init_domains cw) with
  | Ok d1 =>
      match ac3 cw d1 None with
      | Ok (_, d2) =>
          mkRun [call_enforce_node_consistency; call_ac3; call_backtrack]
                (r ← backtrack cw (backtrack_fuel d2) d2 []; Ok r.1)
      | Raise e => mkRun [call_enforce_node_consistency; call_ac3] (Raise e)
      | Timeout => mkRun [call_enforce_node_consistency; call_ac3] Timeout
      end
  | Raise e => mkRun [call_enforce_node_consistency] (Raise e)
  | Timeout => mkRun [call_enforce_node_consistency] Timeout
  end.

(** [solve()] *)
Definition solve (cw : Crossword) : result (option Assignment) :=
  outcome (solve_run cw).

(** ** The grid of letters: [letter_grid] *)

(** The two-dimensional array [letters]: a list of rows, each cell a
    character or [None]. *)
Abbreviation Grid := (list (list (option ascii))) (only parsing).

(** [[[None for _ in range(width)] for _ in range(height)]]: the rows are
    distinct lists. *)
Definition blank_grid (height width : nat) : Grid :=
  replicate height (replicate width None).

(** [letters[i][j] = c]: [IndexError] when the row [i] or the column [j] is
    out of range. *)
Definition grid_set (letters : Grid) (i j : nat) (c : ascii) : result Grid :=
  match letters !! i with
  | None => Raise IndexError
  | Some row =>
      if decide (j < length row) then Ok (<[i := <[j := Some c]> row]> letters)
      else Raise IndexError
  end.

(** [variable.i + (k if direction == Variable.DOWN else 0)]. *)
Definition cell_i (variable : Var) (k : nat) : nat :=
  var_i variable + (if decide (var_direction variable = DOWN) then k else 0).

(** [variable.j + (k if direction == Variable.ACROSS else 0)]. *)
Definition cell_j (variable : Var) (k : nat) : nat :=
  var_j variable + (if decide (var_direction variable = ACROSS) then k else 0).

(** The loop [for k in range(len(word))], on the indices [ks] left. *)
Fixpoint write_letters (variable : Var) (word : Word) (ks : list nat)
    (letters : Grid) : result Grid :=
  match ks with
  | [] => Ok letters
  | k :: ks' =>
      c ← str_index word k;
      letters' ← grid_set letters (cell_i variable k) (cell_j variable k) c;
      write_letters variable word ks' letters'
  end.

(** The loop [for variable, word in assignment.items()]. *)
Fixpoint write_words (items : list (Var * Word)) (letters : Grid) : result Grid :=
  match items with
  | [] => Ok letters
  | (variable, word) :: items' =>
      letters' ← write_letters variable word (seq 0 (len word)) letters;
      write_words items' letters'
  end.

(** [letter_grid(assignment)], on a crossword of the given height and
    width. *)
Definition letter_grid (height width : nat) (assignment : Assignment) : result Grid :=
  write_words assignment (blank_grid height width).

(** ** The predicates of the specification *)

(** The letters [w[i]] and [w'[j]] exist and are equal. *)
Definition agree (i j : nat) (w w' : Word) : Prop :=
  match String.get i w, String.get j w' with
  | Some a, Some b => a = b
  | _, _ => False
  end.

#[global] Instance agree_dec i j w w' : Decision (agree i j w w').
Proof. unfold agree. destruct (String.get i w), (String.get j w'); apply _. Defined.

(** [w] has a support in the domain [dy]. *)
Definition supported (i j : nat) (dy : list Word) (w : Word) : Prop :=
  Exists (agree i j w) dy.

#[global] Instance supported_dec i j dy w : Decision (supported i j dy w).
Proof. unfold supported. apply _. Defined.

(** The arc from [x] to [y] is consistent in the store [d]: with the
    overlap [(i, j)], every word of the domain of [x] has a support in the
    domain of [y]. *)
Definition arc_consistent (cw : Crossword) (d : Domains) (x y : Var) : Prop :=
  forall i j dx dy,
    overlaps cw x y = Some (i, j) ->
    dict_get d x = Some dx -> dict_get d y = Some dy ->
    Forall (supported i j dy) dx.

(** The table of overlaps describes each shared cell from both sides. *)
Definition symmetric_overlaps (cw : Crossword) : Prop :=
  forall x y i j, overlaps cw x y = Some (i, j) -> overlaps cw y x = Some (j, i).

(** The overlap constraint between two assigned variables: absent overlap,
    or agreement of the two words at the overlap indices. *)
Definition overlap_ok (cw : Crossword) (x y : Var) (wx wy : Word) : Prop :=
  match overlaps cw x y with
  | None => True
  | Some (i, j) => agree i j wx wy
  end.

#[global] Instance overlap_ok_dec cw x y wx wy : Decision (overlap_ok cw x y wx wy).
Proof. unfold overlap_ok. destruct (overlaps cw x y) as [[i j]|]; apply _. Defined.

(** The consistency predicate as the specification words it: every assigned
    word has the length of its variable, no two assigned variables share a
    word, and every pair of assigned variables that are neighbors agrees at
    its overlap indices. Unassigned neighbors and domains play no part. *)
Definition consistent_by_spec (cw : Crossword) (assignment : Assignment) : Prop :=
  Forall (fun kv => var_length kv.1 = len kv.2) assignment /\
  NoDup (dict_values assignment) /\
  Forall (fun kx => Forall (fun ky =>
            ky.1 ∈ neighbors cw kx.1 -> overlap_ok cw kx.1 ky.1 kx.2 ky.2)
          assignment) assignment.

#[global] Instance consistent_by_spec_dec cw assignment :
  Decision (consistent_by_spec cw assignment).
Proof. unfold consistent_by_spec. apply _. Defined.

(** Every assigned word is a candidate of its variable in the store [d]. *)
Definition from_domains (d : Domains) (assignment : Assignment) : Prop :=
  Forall (fun kv => match dict_get d kv.1 with
                    | Some s => kv.2 ∈ s
                    | None => False
                    end) assignment.

#[global] Instance from_domains_dec d assignment : Decision (from_domains d assignment).
Proof.
  unfold from_domains. apply Forall_dec. intros kv.
  destruct (dict_get d kv.1); apply _.
Defined.

(** The word [w] is a candidate of the variable [n] in the store [d]. *)
Definition candidate (d : Domains) (w : Word) (n : Var) : Prop :=
  match dict_get d n with
  | Some dn => w ∈ dn
  | None => False
  end.

#[global] Instance candidate_dec d w n : Decision (candidate d w n).
Proof. unfold candidate. destruct (dict_get d n); apply _. Defined.

(** The score of the word [w] for the variable [var] as the specification
    defines it: the number of neighbors of [var] whose domain holds [w]. *)
Definition score (cw : Crossword) (d : Domains) (var : Var) (w : Word) : nat :=
  length (filter (candidate d w) (neighbors cw var)).

(** The scores of a list of scored words are in ascending order. *)
Fixpoint ascending (l : list (Word * nat)) : bool :=
  match l with
  | kv :: (kv' :: _) as l' => bool_decide (kv.2 <= kv'.2)%nat && ascending l'
  | _ => true
  end.

(** ** A two-slot puzzle

    The slot [slot_a] runs across from row 0, column 0; the slot [slot_d]
    runs down from row 0, column 1. They share the cell of row 0, column 1:
    the second letter of [slot_a] is the first letter of [slot_d]. *)

Definition slot_a : Var := mkVar 0 0 ACROSS 2.
Definition slot_d : Var := mkVar 0 1 DOWN 2.

Definition corner_overlaps (v1 v2 : Var) : option (nat * nat) :=
  if decide (v1 = slot_a /\ v2 = slot_d) then Some (1, 0)
  else if decide (v1 = slot_d /\ v2 = slot_a) then Some (0, 1)
  else None.

(** The two-slot puzzle over the vocabulary [vocabulary]. *)
Definition corner (vocabulary : list Word) : Crossword :=
  mkCrossword [slot_a; slot_d] vocabulary corner_overlaps.

(** The domain store when [solve] starts its search: after node consistency
    and AC-3. *)
Definition propagated (cw : Crossword) : result (bool * Domains) :=
  d ← enforce_node_consistency (init_domains cw); ac3 cw d None.

(** ** Notions of the proofs *)

(** The words that fit the slot [key]. *)
Definition fits (key : Var) (w : Word) : Prop := var_length key = len w.

#[global] Instance fits_dec key w : Decision (fits key w).
Proof. unfold fits. apply _. Defined.

(** The keys of a dictionary filled with the words of [l], in order. *)
Definition add_keys (ks l : list Word) : list Word :=
  foldl (fun ks w => if decide (w ∈ ks) then ks else ks ++ [w]) ks l.

(** The call [recurse] leaves the dictionary as it found it when it returns
    [None]. *)
Definition restores (recurse : Assignment -> result (option Assignment * Assignment)) : Prop :=
  forall a1 a2, recurse a1 = Ok (None, a2) -> a2 = a1.

(** What the returned value of a call of [backtrack] on [assignment]
    satisfies: it is the shared dictionary, it is complete, it is
    [assignment] itself or has passed [consistent], and its words come
    from the domains when those of [assignment] do. *)
Definition sound_outcome (cw : Crossword) (d : Domains) (assignment : Assignment)
    (out : option Assignment * Assignment) : Prop :=
  match out.1 with
  | None => True
  | Some r =>
      out.2 = r /\
      assignment_complete d r = true /\
      (r = assignment \/ consistent cw d r = Ok true) /\
      (from_domains d assignment -> from_domains d r)
  end.

(** A computation that is not cut by its fuel. *)
Definition returns {A} (m : result A) : Prop := m ≠ Timeout.

(** The unassigned variables of the store. *)
Definition unassigned_count (d : Domains) (assignment : Assignment) : nat :=
  length (filter (fun v => v ∉ dict_keys assignment) (dict_keys d)).

(** The invariant of the loop: an arc between distinct variables of the
    store is in the queue or consistent. *)
Definition pending_or_consistent (cw : Crossword) (d : Domains)
    (queue : list (Var * Var)) : Prop :=
  forall x y, x ∈ dict_keys d -> y ∈ dict_keys d -> x ≠ y ->
    (x, y) ∈ queue \/ arc_consistent cw d x y.

(** ** Notions of the further properties *)

(** Every word of the store has the length of its variable. *)
Definition node_consistent (d : Domains) : Prop :=
  forall v s, dict_get d v = Some s -> Forall (fits v) s.

(** The overlap indices of the puzzle lie within the slots, and the table
    describes each shared cell from both sides. *)
Definition well_formed (cw : Crossword) : Prop :=
  symmetric_overlaps cw /\
  forall x y i j, overlaps cw x y = Some (i, j) ->
    i < var_length x /\ j < var_length y.

(** The words of the store reach the overlap indices of their variable. *)
Definition words_reach (cw : Crossword) (d : Domains) : Prop :=
  forall x y i j, overlaps cw x y = Some (i, j) ->
    (forall dx, dict_get d x = Some dx -> Forall (fun w => i < len w) dx) /\
    (forall dy, dict_get d y = Some dy -> Forall (fun w => j < len w) dy).



(** What [consistent] asks of an assigned variable [key]: each neighbor has
    an overlap with it and a domain in the store, and every word of that
    domain, whether the neighbor is assigned or not, agrees with the word
    of [key] at the overlap indices. *)
Definition unanimous (cw : Crossword) (d : Domains) (assignment : Assignment)
    (key : Var) : Prop :=
  forall n, n ∈ neighbors cw key ->
    exists i j dn, overlaps cw key n = Some (i, j) /\
      dict_get d n = Some dn /\
      (dn = [] \/ exists w, dict_get assignment key = Some w /\ Forall (agree i j w) dn).

(** A computation that raises no exception. *)
Definition no_raise {A} (m : result A) : Prop := forall e, m ≠ Raise e.

(** The tie-break of [select_unassigned_variable] on the keys of smallest
    domain: the last lines of the method. *)
Definition break_tie (cw : Crossword) (keys : list Var) : result Var :=
  if decide (length keys = 1) then first keys
  else
    let degree_check :=
      foldl (fun dc key => dict_set dc key (length (neighbors cw key))) [] keys in
    max_val ← py_max (dict_values degree_check);
    let keys := (filter (fun kv => kv.2 = max_val) degree_check).*1 in
    first keys.

(** A property of assignments that assigning a variable of the store
    keeps. *)
Definition kept_by_assigning (d : Domains) (P : Assignment -> Prop) : Prop :=
  forall assignment var val,
    P assignment -> var ∈ dict_keys d -> var ∉ dict_keys assignment ->
    P (dict_set assignment var val).

(** A grid of [height] rows of [width] cells. *)
Definition shape (height width : nat) (letters : Grid) : Prop :=
  length letters = height /\ Forall (fun row => length row = width) letters.

(** The cell [(i, j)] of a grid, when the grid has it. *)
Definition grid_get (letters : Grid) (i j : nat) : option (option ascii) :=
  match letters !! i with
  | Some row => row !! j
  | None => None
  end.

(** The cell [(i, j)] is one of the cells of [word] laid on [variable]. *)
Definition covers (kv : Var * Word) (i j : nat) : Prop :=
  exists k, k < len kv.2 /\ cell_i kv.1 k = i /\ cell_j kv.1 k = j.

(** Every cell of the word laid on the variable lies in the grid. *)
Definition in_grid (height width : nat) (kv : Var * Word) : Prop :=
  Forall (fun k => cell_i kv.1 k < height /\ cell_j kv.1 k < width)
         (seq 0 (len kv.2)).

#[global] Instance in_grid_dec height width kv : Decision (in_grid height width kv).
Proof. unfold in_grid. apply _. Defined.

(** * Properties *)

(** ** Outcomes *)

Lemma bind_Ok {A B} (m : result A) (f : A -> result B) (b : B) :
  m ≫= f = Ok b -> exists a, m = Ok a /\ f a = Ok b.
Proof. destruct m as [a| |]; simpl; [eauto | discriminate | discriminate]. Qed.

Tactic Notation "inv_bind" hyp(H) "as" ident(a) ident(Ha) :=
  apply bind_Ok in H; destruct H as (a & Ha & H).

(** ** Sets and dictionaries *)

Lemma remove_first_middle (w : Word) (kept l : list Word) :
  w ∉ kept -> remove_first w (kept ++ w :: l) = kept ++ l.
Proof.
  induction kept as [|k kept IH]; simpl; intros Hnot.
  - by rewrite decide_True.
  - apply not_elem_of_cons in Hnot as [Hne Hnot].
    rewrite decide_False by congruence. by rewrite IH.
Qed.

Lemma set_remove_middle (w : Word) (kept l : list Word) :
  w ∉ kept -> set_remove w (kept ++ w :: l) = Ok (kept ++ l).
Proof.
  intros Hnot. unfold set_remove.
  rewrite decide_True by (apply elem_of_app; right; left).
  by rewrite remove_first_middle.
Qed.

Section DictFacts.
Context {K V : Type} `{EqDecision K}.
Implicit Types (d : dict K V) (k : K) (v : V).

Lemma dict_keys_replace d k v : dict_keys (dict_replace d k v) = dict_keys d.
Proof.
  unfold dict_keys. induction d as [|[k' v'] d IH]; csimpl; [done|].
  case_decide; csimpl; [done | by rewrite IH].
Qed.

Lemma dict_get_replace d k v k' :
  dict_get (dict_replace d k v) k' =
  if decide (k = k') then (fun _ => v) <$> dict_get d k' else dict_get d k'.
Proof.
  induction d as [|[k0 v0] d IH]; simpl.
  - by case_decide.
  - repeat case_decide; simplify_eq; simpl;
      rewrite ?decide_True, ?decide_False by done; try done;
      rewrite ?IH; by rewrite ?decide_True, ?decide_False by done.
Qed.

Lemma dict_get_replace_eq d k v :
  dict_get (dict_replace d k v) k = (fun _ => v) <$> dict_get d k.
Proof. rewrite dict_get_replace. by rewrite decide_True. Qed.

Lemma dict_get_replace_ne d k v k' :
  k ≠ k' -> dict_get (dict_replace d k v) k' = dict_get d k'.
Proof. intros. rewrite dict_get_replace. by rewrite decide_False. Qed.

Lemma dict_get_Some_elem d k v : dict_get d k = Some v -> (k, v) ∈ d.
Proof.
  induction d as [|[k0 v0] d IH]; simpl; [done|].
  case_decide; [intros [= ->]; subst; left | intros; right; auto].
Qed.

Lemma dict_get_None d k : dict_get d k = None <-> k ∉ dict_keys d.
Proof.
  unfold dict_keys. induction d as [|[k0 v0] d IH]; simpl.
  - split; [intros _; apply not_elem_of_nil | done].
  - rewrite not_elem_of_cons. case_decide; subst; split; try done.
    + by intros [? _].
    + intros ?. split; [congruence | by apply IH].
    + intros [_ ?]. by apply IH.
Qed.

Lemma dict_get_is_Some d k : is_Some (dict_get d k) <-> k ∈ dict_keys d.
Proof.
  destruct (dict_get d k) as [v|] eqn:E.
  - split; [intros _ | eauto].
    destruct (decide (k ∈ dict_keys d)) as [|Hn]; [done|].
    apply dict_get_None in Hn. congruence.
  - split; [by intros [? ?] | intros Hin].
    apply dict_get_None in E. done.
Qed.

Lemma dict_lookup_Ok d k v : dict_lookup d k = Ok v <-> dict_get d k = Some v.
Proof.
  unfold dict_lookup. destruct (dict_get d k); split; congruence.
Qed.
End DictFacts.

Section DictSet.
Context {K V : Type} `{EqDecision K}.
Implicit Types (d : dict K V) (k : K) (v : V).

Lemma dict_keys_set d k v :
  dict_keys (dict_set d k v) =
  if decide (k ∈ dict_keys d) then dict_keys d else dict_keys d ++ [k].
Proof.
  unfold dict_set. destruct (dict_get d k) as [v0|] eqn:E.
  - rewrite decide_True by (apply dict_get_is_Some; eauto).
    apply dict_keys_replace.
  - rewrite decide_False by (by apply dict_get_None).
    unfold dict_keys. by rewrite fmap_app.
Qed.

Lemma dict_keys_set_in d k v :
  k ∈ dict_keys d -> dict_keys (dict_set d k v) = dict_keys d.
Proof. intros. rewrite dict_keys_set. by rewrite decide_True. Qed.

Lemma elem_of_dict_keys_set d k v : k ∈ dict_keys (dict_set d k v).
Proof.
  rewrite dict_keys_set. case_decide; [done|].
  apply elem_of_app. right. left.
Qed.
End DictSet.


Section DictMore.
Context {K V : Type} `{EqDecision K}.
Implicit Types (d : dict K V) (k : K) (v : V).

Lemma dict_get_app d1 d2 k :
  dict_get (d1 ++ d2) k =
  match dict_get d1 k with Some v => Some v | None => dict_get d2 k end.
Proof.
  induction d1 as [|[k0 v0] d1 IH]; simpl; [done|]. by case_decide.
Qed.

Lemma dict_get_set d k v k' :
  dict_get (dict_set d k v) k' = if decide (k = k') then Some v else dict_get d k'.
Proof.
  unfold dict_set. destruct (dict_get d k) as [v0|] eqn:E.
  - rewrite dict_get_replace. case_decide; [subst; by rewrite E | done].
  - rewrite dict_get_app. simpl. case_decide; [subst; by rewrite E|].
    by destruct (dict_get d k').
Qed.

Lemma dict_keys_set_NoDup d k v :
  NoDup (dict_keys d) -> NoDup (dict_keys (dict_set d k v)).
Proof.
  intros Hnd. rewrite dict_keys_set. case_decide as Hin; [done|].
  apply NoDup_app. split_and!; [done| |apply NoDup_singleton].
  intros x Hx ->%list_elem_of_singleton. done.
Qed.

Lemma dict_get_elem_NoDup d k v :
  NoDup (dict_keys d) -> (k, v) ∈ d -> dict_get d k = Some v.
Proof.
  unfold dict_keys. induction d as [|[k0 v0] d IH]; csimpl; intros Hnd Hin.
  - by apply elem_of_nil in Hin.
  - apply NoDup_cons in Hnd as [Hk0 Hnd].
    apply elem_of_cons in Hin as [[= -> ->]|Hin]; [by rewrite decide_True|].
    rewrite decide_False; [by apply IH|].
    intros ->. apply Hk0. apply list_elem_of_fmap. by exists (k, v).
Qed.

Lemma elem_of_dict_values d v : v ∈ dict_values d <-> exists k, (k, v) ∈ d.
Proof.
  unfold dict_values. rewrite list_elem_of_fmap. split.
  - intros ([k v'] & -> & Hin). eauto.
  - intros [k Hin]. by exists (k, v).
Qed.

Lemma elem_of_dict_keys d k : k ∈ dict_keys d <-> exists v, (k, v) ∈ d.
Proof.
  unfold dict_keys. rewrite list_elem_of_fmap. split.
  - intros ([k' v] & -> & Hin). eauto.
  - intros [v Hin]. by exists (k, v).
Qed.

Lemma elem_of_filled_keys (f : K -> V) (l : list K) d k :
  k ∈ dict_keys (foldl (fun dc key => dict_set dc key (f key)) d l) <->
  k ∈ dict_keys d \/ k ∈ l.
Proof.
  revert d. induction l as [|a l IH]; intros d; simpl.
  - rewrite elem_of_nil. tauto.
  - rewrite IH, dict_keys_set, elem_of_cons. case_decide as Hin.
    + split; [tauto|]. intros [?|[->|?]]; tauto.
    + rewrite elem_of_app, list_elem_of_singleton. tauto.
Qed.
End DictMore.


Section DictDel.
Context {K V : Type} `{EqDecision K}.
Implicit Types (d : dict K V) (k : K) (v : V).

Lemma dict_without_fresh d k : k ∉ dict_keys d -> dict_without d k = d.
Proof.
  unfold dict_without, dict_keys. induction d as [|[k0 v0] d IH]; [done|].
  rewrite fmap_cons. intros [Hne Hnin]%not_elem_of_cons.
  rewrite filter_cons. case_decide as Hk; [by rewrite IH|].
  simpl in Hk. by destruct Hk.
Qed.

Lemma dict_set_del_fresh d k v :
  k ∉ dict_keys d -> dict_del (dict_set d k v) k = Ok d.
Proof.
  intros Hnin. unfold dict_del. rewrite dict_get_set, decide_True by done.
  f_equal. unfold dict_set. apply dict_get_None in Hnin as Hget. rewrite Hget.
  unfold dict_without. rewrite filter_app. fold (dict_without d k).
  rewrite dict_without_fresh by done.
  rewrite filter_cons, filter_nil. case_decide as Hk; [by destruct Hk|].
  by rewrite app_nil_r.
Qed.
End DictDel.


(** ** Node consistency *)

Lemma enforce_values_filter (key : Var) (copy kept : list Word) :
  Forall (fits key) kept ->
  enforce_values key copy (kept ++ copy) = Ok (kept ++ filter (fits key) copy).
Proof.
  revert kept. induction copy as [|value copy IH]; intros kept Hkept; simpl.
  - done.
  - destruct (decide (var_length key ≠ len value)) as [Hbad|Hgood].
    + rewrite set_remove_middle; simpl.
      * rewrite IH by done. by rewrite filter_cons_False.
      * intros Hin. rewrite Forall_forall in Hkept. by apply Hkept in Hin.
    + assert (fits key value) by (unfold fits; lia).
      rewrite filter_cons_True by done.
      rewrite (cons_middle value kept copy), (cons_middle value kept), !app_assoc.
      apply IH. apply Forall_app; split; [done | by apply Forall_singleton].
Qed.

Lemma enforce_keys_spec (ks : list Var) (d : Domains) :
  ks ⊆ dict_keys d ->
  exists d', enforce_keys ks d = Ok d' /\
    dict_keys d' = dict_keys d /\
    forall v, dict_get d' v =
      if decide (v ∈ ks) then filter (fits v) <$> dict_get d v else dict_get d v.
Proof.
  revert d. induction ks as [|key ks IH]; intros d Hsub; cbn [enforce_keys].
  - exists d. split_and!; [done..|]. intros v.
    case_decide as Hin; [by apply elem_of_nil in Hin | done].
  - assert (key ∈ dict_keys d) as Hkey by (apply Hsub; left).
    apply dict_get_is_Some in Hkey as [s Hs].
    unfold dict_lookup. rewrite Hs. cbn [mbind result_bind].
    pose proof (enforce_values_filter key s [] (Forall_nil_2 _)) as Hvals.
    cbn [app] in Hvals. rewrite Hvals. cbn [mbind result_bind].
    destruct (IH (dict_replace d key (filter (fits key) s))) as (d' & Hrun & Hkeys & Hget).
    { rewrite dict_keys_replace. intros v Hv. apply Hsub. by right. }
    exists d'. split_and!; [done | by rewrite Hkeys, dict_keys_replace |].
    intros v. rewrite Hget, dict_get_replace.
    destruct (decide (key = v)) as [->|Hne].
    + rewrite Hs. simpl. rewrite (decide_True (P := v ∈ v :: ks)) by left.
      case_decide; [|done]. f_equal.
      apply list_filter_filter_l. done.
    + destruct (decide (v ∈ ks)) as [Hin|Hnin].
      * by rewrite decide_True by (by right).
      * rewrite decide_False; [done|]. intros [?|?]%elem_of_cons; congruence.
Qed.

(** [enforce_node_consistency] adds and drops no variable. *)
Lemma enforce_node_consistency_keys (d d' : Domains) :
  enforce_node_consistency d = Ok d' -> dict_keys d' = dict_keys d.
Proof.
  intros Hrun.
  destruct (enforce_keys_spec (dict_keys d) d) as (d'' & Hrun' & Hkeys & _); [done|].
  unfold enforce_node_consistency in Hrun. congruence.
Qed.

(** C8. [enforce_node_consistency] never raises, and leaves in the domain
    of every variable exactly the words of its former domain whose length
    is the length of the variable, in their former order; it adds and drops
    no variable. *)
Theorem enforce_node_consistency_exact (d : Domains) :
  exists d', enforce_node_consistency d = Ok d' /\
    dict_keys d' = dict_keys d /\
    forall v, dict_get d' v =
      filter (fun w => var_length v = len w) <$> dict_get d v.
Proof.
  destruct (enforce_keys_spec (dict_keys d) d) as (d' & Hrun & Hkeys & Hget); [done|].
  exists d'. split_and!; [done..|].
  intros v. rewrite Hget. case_decide as Hin; [done|].
  apply dict_get_None in Hin. by rewrite Hin.
Qed.

(** ** Arc consistency: [revise] *)

Lemma get_in_range (w : Word) (k : nat) :
  k < len w -> exists c, String.get k w = Some c.
Proof.
  unfold len. revert k. induction w as [|a w IH]; intros k Hk; simpl in *; [lia|].
  destruct k as [|k]; [eauto|]. apply IH. lia.
Qed.

Section Revise.
Context (cw : Crossword).

Lemma has_support_spec val_x i j dy :
  i < len val_x -> Forall (fun w => j < len w) dy ->
  has_support val_x i j dy = Ok (bool_decide (supported i j dy val_x)).
Proof.
  intros Hi Hj. destruct (get_in_range val_x i Hi) as [a Ha].
  induction Hj as [|val_y dy Hy Hdy IH]; cbn [has_support].
  - rewrite bool_decide_eq_false_2; [done|]. unfold supported. by intros ?%Exists_nil.
  - destruct (get_in_range val_y j Hy) as [b Hb].
    unfold str_index. rewrite Ha, Hb. cbn [mbind result_bind].
    destruct (decide (a = b)) as [Heq|Hne].
    + rewrite bool_decide_eq_true_2; [done|].
      apply Exists_cons_hd. unfold agree. by rewrite Ha, Hb.
    + rewrite IH. f_equal. apply bool_decide_ext. unfold supported.
      rewrite Exists_cons. unfold agree at 2. rewrite Ha, Hb. tauto.
Qed.

Lemma revise_scan_spec i j dx dy remove revised :
  Forall (fun w => i < len w) dx -> Forall (fun w => j < len w) dy ->
  revise_scan i j dx dy remove revised =
  Ok (remove ++ filter (fun w => ¬ supported i j dy w) dx,
      revised || bool_decide (Exists (fun w => ¬ supported i j dy w) dx)).
Proof.
  intros Hi Hj. revert remove revised.
  induction Hi as [|val_x dx Hx Hdx IH]; intros remove revised; simpl.
  - rewrite app_nil_r, orb_false_r. done.
  - rewrite has_support_spec by done. simpl.
    destruct (decide (supported i j dy val_x)) as [Hs|Hs].
    + rewrite bool_decide_eq_true_2 by done. rewrite IH.
      rewrite filter_cons_False by tauto.
      do 2 f_equal. f_equal. apply bool_decide_ext. rewrite Exists_cons. tauto.
    + rewrite bool_decide_eq_false_2 by done. rewrite IH.
      rewrite filter_cons_True by done. rewrite <- app_assoc. simpl.
      rewrite (bool_decide_eq_true_2 (Exists _ (_ :: _))); [by rewrite orb_true_r|].
      by apply Exists_cons_hd.
Qed.

Lemma remove_words_filter (P : Word -> Prop) `{forall w, Decision (P w)} l kept :
  Forall P kept ->
  remove_words (filter (fun w => ¬ P w) l) (kept ++ l) = Ok (kept ++ filter P l).
Proof.
  revert kept. induction l as [|w l IH]; intros kept Hkept; simpl; [done|].
  destruct (decide (P w)) as [Hw|Hw].
  - rewrite filter_cons_False by tauto. rewrite filter_cons_True by done.
    rewrite (cons_middle w kept l), (cons_middle w kept), !app_assoc.
    apply IH. apply Forall_app. split; [done | by apply Forall_singleton].
  - rewrite filter_cons_True by done. rewrite filter_cons_False by done.
    simpl. rewrite set_remove_middle; simpl; [by apply IH|].
    intros Hin. rewrite Forall_forall in Hkept. by apply Hkept in Hin.
Qed.

(** C6. [revise(x, y)] on a store that holds [x] and [y], whose words
    reach the overlap indices. Without an overlap it returns [False] and
    the store is unchanged. With the overlap [(i, j)] it leaves in the
    domain of [x] exactly the words that have a support in the domain of
    [y], in their former order; it returns [True] if and only if a word
    of the domain of [x] had no support, that is, was removed; the domain
    of [y] and of every variable other than [x] is unchanged. *)
Theorem revise_exact d x y dx dy :
  x ≠ y ->
  dict_get d x = Some dx ->
  dict_get d y = Some dy ->
  (forall i j, overlaps cw x y = Some (i, j) ->
     Forall (fun w => i < len w) dx /\ Forall (fun w => j < len w) dy) ->
  exists revised d', revise cw d x y = Ok (revised, d') /\
    dict_keys d' = dict_keys d /\
    match overlaps cw x y with
    | None => revised = false /\ d' = d
    | Some (i, j) =>
        dict_get d' x = Some (filter (supported i j dy) dx) /\
        (revised = true <-> exists w, w ∈ dx /\ ¬ supported i j dy w) /\
        dict_get d' y = Some dy /\
        forall v, v ≠ x -> dict_get d' v = dict_get d v
    end.
Proof.
  intros Hxy Hx Hy Hrange. unfold revise.
  destruct (overlaps cw x y) as [[i j]|] eqn:Hov.
  - destruct (Hrange i j eq_refl) as [Hi Hj].
    unfold dict_lookup. rewrite Hx, Hy. simpl.
    rewrite revise_scan_spec by done. simpl.
    pose proof (remove_words_filter (supported i j dy) dx [] (Forall_nil_2 _)) as Hrm.
    simpl in Hrm. rewrite Hrm. simpl.
    eexists _, _. split; [reflexivity|]. split; [apply dict_keys_replace|].
    split_and!.
    + by rewrite dict_get_replace_eq, Hx.
    + rewrite bool_decide_eq_true, Exists_exists. done.
    + by rewrite dict_get_replace_ne, Hy.
    + intros v Hv. by rewrite dict_get_replace_ne.
  - eexists _, _. split; [reflexivity|]. done.
Qed.
End Revise.

(** ** What a call of [revise] that returns has done *)

Section ReviseOk.
Context (cw : Crossword).

Lemma has_support_Ok val_x i j dy b :
  has_support val_x i j dy = Ok b -> b = bool_decide (supported i j dy val_x).
Proof.
  unfold supported. induction dy as [|val_y dy IH]; cbn [has_support]; intros Hrun.
  - injection Hrun as <-. symmetry. apply bool_decide_eq_false. by intros ?%Exists_nil.
  - inv_bind Hrun as a Ha. inv_bind Hrun as c Hc. unfold str_index in Ha, Hc.
    destruct (String.get i val_x) as [a'|] eqn:Ea; [|discriminate].
    destruct (String.get j val_y) as [c'|] eqn:Ec; [|discriminate].
    injection Ha as ->. injection Hc as ->.
    destruct (decide (a = c)) as [Heq|Hne].
    + injection Hrun as <-. symmetry. apply bool_decide_eq_true.
      apply Exists_cons_hd. unfold agree. by rewrite Ea, Ec.
    + rewrite (IH Hrun). apply bool_decide_ext. rewrite Exists_cons.
      unfold agree at 2. rewrite Ea, Ec. tauto.
Qed.

Lemma revise_scan_Ok i j dx dy remove revised remove' revised' :
  revise_scan i j dx dy remove revised = Ok (remove', revised') ->
  remove' = remove ++ filter (fun w => ¬ supported i j dy w) dx /\
  revised' = revised || bool_decide (Exists (fun w => ¬ supported i j dy w) dx).
Proof.
  revert remove revised.
  induction dx as [|val_x dx IH]; intros remove revised; cbn [revise_scan]; intros Hrun.
  - injection Hrun as <- <-. rewrite filter_nil, app_nil_r, orb_false_r. done.
  - inv_bind Hrun as b Hb. apply has_support_Ok in Hb as ->.
    destruct (decide (supported i j dy val_x)) as [Hs|Hs].
    + rewrite bool_decide_eq_true_2 in Hrun by done.
      apply IH in Hrun as [-> ->]. rewrite filter_cons_False by tauto.
      split; [done|]. f_equal. apply bool_decide_ext. rewrite Exists_cons. tauto.
    + rewrite bool_decide_eq_false_2 in Hrun by done.
      apply IH in Hrun as [-> ->]. rewrite filter_cons_True by done.
      rewrite <- app_assoc. split; [done|]. cbn [orb].
      rewrite (bool_decide_eq_true_2 (Exists _ (_ :: _))); [by rewrite orb_true_r|].
      by apply Exists_cons_hd.
Qed.

(** A call of [revise] that returns has kept in the domain of [x] the
    words that have a support in the domain of [y], and tells whether a
    word had none. *)
Lemma revise_Ok d x y revised d' :
  revise cw d x y = Ok (revised, d') ->
  match overlaps cw x y with
  | None => revised = false /\ d' = d
  | Some (i, j) =>
      exists dx dy, dict_get d x = Some dx /\ dict_get d y = Some dy /\
        d' = dict_replace d x (filter (supported i j dy) dx) /\
        revised = bool_decide (Exists (fun w => ¬ supported i j dy w) dx)
  end.
Proof.
  unfold revise. destruct (overlaps cw x y) as [[i j]|].
  - intros Hrun. inv_bind Hrun as dx Hdx. inv_bind Hrun as dy Hdy.
    apply dict_lookup_Ok in Hdx, Hdy.
    inv_bind Hrun as scan Hscan. destruct scan as [remove revised'].
    apply revise_scan_Ok in Hscan as [-> ->]. cbn [app orb] in Hrun.
    pose proof (remove_words_filter (supported i j dy) dx [] (Forall_nil_2 _)) as Hrm.
    cbn [app] in Hrm. rewrite Hrm in Hrun. cbn [mbind result_bind] in Hrun.
    injection Hrun as <- <-. exists dx, dy. done.
  - by intros [= <- <-].
Qed.
End ReviseOk.

(** ** The keys of the domain store *)

Lemma init_domains_keys (cw : Crossword) (v : Var) :
  v ∈ dict_keys (init_domains cw) <-> v ∈ variables cw.
Proof.
  unfold init_domains.
  rewrite (elem_of_filled_keys (fun _ => words cw) (variables cw) [] v).
  split; [intros [Hin|?]; [by apply elem_of_nil in Hin | done] | by right].
Qed.

Section Ac3Keys.
Context (cw : Crossword).

Lemma revise_keys d x y revised d' :
  revise cw d x y = Ok (revised, d') -> dict_keys d' = dict_keys d.
Proof.
  unfold revise. destruct (overlaps cw x y) as [[i j]|].
  - intros Hrun. inv_bind Hrun as dx Hdx. inv_bind Hrun as dy Hdy.
    inv_bind Hrun as scan Hscan. destruct scan as [remove revised'].
    inv_bind Hrun as s Hs. injection Hrun as <- <-. apply dict_keys_replace.
  - by intros [= <- <-].
Qed.

Lemma ac3_loop_keys fuel d queue b d' :
  ac3_loop cw fuel d queue = Ok (b, d') -> dict_keys d' = dict_keys d.
Proof.
  revert d queue. induction fuel as [|fuel IH]; intros d queue; cbn [ac3_loop]; [done|].
  destruct queue as [|[X Y] queue]; [by intros [= <- <-]|].
  intros Hrun. inv_bind Hrun as rev Hrev. destruct rev as [revised d1].
  apply revise_keys in Hrev. destruct revised.
  - inv_bind Hrun as dX HdX. case_decide.
    + injection Hrun as <- <-. done.
    + apply IH in Hrun. congruence.
  - apply IH in Hrun. congruence.
Qed.

Lemma propagated_keys b d v :
  propagated cw = Ok (b, d) -> v ∈ dict_keys d <-> v ∈ variables cw.
Proof.
  unfold propagated. intros Hrun. inv_bind Hrun as d1 Hd1.
  apply enforce_node_consistency_keys in Hd1 as Hkeys.
  unfold ac3 in Hrun. apply ac3_loop_keys in Hrun.
  rewrite Hrun, Hkeys. apply init_domains_keys.
Qed.
End Ac3Keys.

(** ** Arc consistency: [ac3] *)

Lemma agree_sym i j w w' : agree i j w w' <-> agree j i w' w.
Proof.
  unfold agree. destruct (String.get i w), (String.get j w'); split; congruence.
Qed.

Section Ac3.
Context (cw : Crossword).

Lemma arc_consistent_ext d d' x y :
  dict_get d' x = dict_get d x -> dict_get d' y = dict_get d y ->
  arc_consistent cw d x y -> arc_consistent cw d' x y.
Proof.
  intros Hx Hy Harc i j dx dy Hov Hdx Hdy. rewrite Hx in Hdx. rewrite Hy in Hdy. eauto.
Qed.

Lemma filter_all {A} (P : A -> Prop) `{forall x, Decision (P x)} (l : list A) :
  ¬ Exists (fun x => ¬ P x) l -> filter P l = l.
Proof.
  induction l as [|a l IH]; intros Hex; [done|].
  rewrite filter_cons. destruct (decide (P a)) as [Ha|Ha].
  - rewrite IH; [done|]. intros Hl. apply Hex. by apply Exists_cons_tl.
  - destruct Hex. by apply Exists_cons_hd.
Qed.

(** One productive revision of the arc [(X, Y)] keeps the invariant, with
    the arcs into [X] from its other neighbors back in the queue. *)
Lemma revise_keeps_invariant d queue X Y i j dx dy :
  symmetric_overlaps cw ->
  dict_keys d ⊆ variables cw ->
  X ≠ Y ->
  overlaps cw X Y = Some (i, j) ->
  dict_get d X = Some dx -> dict_get d Y = Some dy ->
  pending_or_consistent cw d ((X, Y) :: queue) ->
  pending_or_consistent cw (dict_replace d X (filter (supported i j dy) dx))
    (queue ++ ((fun Z => (Z, X)) <$> filter (fun Z => Z ≠ Y) (neighbors cw X))).
Proof.
  intros Hsym Hvars HXY Hov Hdx Hdy Hinv x y Hx Hy Hxy.
  rewrite dict_keys_replace in Hx, Hy.
  set (d1 := dict_replace d X (filter (supported i j dy) dx)).
  assert (dict_get d1 X = Some (filter (supported i j dy) dx)) as HX1
    by (unfold d1; by rewrite dict_get_replace_eq, Hdx).
  assert (forall v, v ≠ X -> dict_get d1 v = dict_get d v) as Hother
    by (intros v Hv; unfold d1; by rewrite dict_get_replace_ne).
  destruct (decide (x = X)) as [->|HxX].
  - (* an arc out of [X] *)
    destruct (decide (y = Y)) as [->|HyY].
    + right. intros i' j' dx' dy' Hov' Hdx' Hdy'.
      rewrite Hother, Hdy in Hdy' by done. rewrite HX1 in Hdx'.
      assert (i' = i /\ j' = j) as [-> ->] by (split; congruence).
      injection Hdx' as <-. injection Hdy' as <-.
      apply Forall_forall. by intros w [Hw _]%list_elem_of_filter.
    + destruct (Hinv X y Hx Hy Hxy) as [Hq|Harc].
      * left. apply elem_of_app. left.
        apply elem_of_cons in Hq as [Heq|Hq]; [congruence | done].
      * right. intros i' j' dx' dy' Hov' Hdx' Hdy'.
        rewrite Hother in Hdy' by congruence. rewrite HX1 in Hdx'. injection Hdx' as <-.
        specialize (Harc i' j' dx dy' Hov' Hdx Hdy').
        rewrite Forall_forall in Harc. apply Forall_forall.
        intros w [_ Hw]%list_elem_of_filter. by apply Harc.
  - destruct (decide (y = X)) as [->|HyX].
    + (* an arc into [X] *)
      destruct (decide (x = Y)) as [->|HxY].
      * destruct (Hinv Y X Hx Hy Hxy) as [Hq|Harc].
        { left. apply elem_of_app. left.
          apply elem_of_cons in Hq as [Heq|Hq]; [congruence | done]. }
        right. intros i' j' dy' dx' Hov' Hdy' Hdx'.
        apply Hsym in Hov as Hov2.
        assert (i' = j /\ j' = i) as [-> ->] by (split; congruence).
        rewrite Hother, Hdy in Hdy' by done. injection Hdy' as <-.
        rewrite HX1 in Hdx'. injection Hdx' as <-.
        specialize (Harc j i dy dx Hov2 Hdy Hdx).
        rewrite Forall_forall in Harc. apply Forall_forall. intros w' Hw'.
        pose proof (Harc w' Hw') as Hsup. unfold supported in Hsup.
        apply Exists_exists in Hsup as (w & Hw & Hagree).
        apply Exists_exists. exists w. split; [|done].
        apply list_elem_of_filter. split; [|done].
        apply Exists_exists. exists w'. split; [done | by apply agree_sym].
      * destruct (decide (is_Some (overlaps cw x X))) as [Hsome|Hnone].
        { left. apply elem_of_app. right. apply list_elem_of_fmap.
          exists x. split; [done|]. apply list_elem_of_filter. split; [done|].
          unfold neighbors. apply list_elem_of_filter. split; [done|]. by apply Hvars. }
        right. intros i' j' dx' dy' Hov'. destruct Hnone. rewrite Hov'. eauto.
    + destruct (Hinv x y Hx Hy Hxy) as [Hq|Harc].
      * left. apply elem_of_app. left.
        apply elem_of_cons in Hq as [Heq|Hq]; [congruence | done].
      * right. apply (arc_consistent_ext d); auto.
Qed.
Lemma dict_get_replace_same (d : Domains) X dx v :
  dict_get d X = Some dx -> dict_get (dict_replace d X dx) v = dict_get d v.
Proof.
  intros Hdx. rewrite dict_get_replace. case_decide; [subst; by rewrite Hdx | done].
Qed.

Lemma ac3_loop_consistent fuel d queue d' :
  symmetric_overlaps cw ->
  dict_keys d ⊆ variables cw ->
  Forall (fun arc => arc.1 ≠ arc.2) queue ->
  pending_or_consistent cw d queue ->
  ac3_loop cw fuel d queue = Ok (true, d') ->
  forall x y, x ≠ y -> arc_consistent cw d' x y.
Proof.
  intros Hsym. revert d queue.
  induction fuel as [|fuel IH]; intros d queue Hvars Hdist Hinv; cbn [ac3_loop]; [done|].
  destruct queue as [|[X Y] queue].
  - intros [= <-] x y Hxy i j dx dy Hov Hdx Hdy.
    destruct (Hinv x y) as [Hq|Harc]; [apply dict_get_is_Some; eauto..|done| |by eapply Harc].
    by apply elem_of_nil in Hq.
  - apply Forall_cons in Hdist as [HXY Hdist]. cbn in HXY.
    intros Hrun. inv_bind Hrun as rev Hrev. destruct rev as [revised d1].
    apply revise_Ok in Hrev. destruct (overlaps cw X Y) as [[i j]|] eqn:Hov.
    + destruct Hrev as (dx & dy & Hdx & Hdy & -> & ->).
      case_bool_decide as Hex.
      * inv_bind Hrun as dX HdX. case_decide; [discriminate|].
        eapply IH; [| | |exact Hrun].
        -- by rewrite dict_keys_replace.
        -- apply Forall_app. split; [done|]. apply Forall_fmap, Forall_forall.
           intros Z [_ HZ]%list_elem_of_filter. cbn.
           unfold neighbors in HZ. apply list_elem_of_filter in HZ as [[HZX _] _]. done.
        -- by apply revise_keeps_invariant.
      * rewrite filter_all in Hrun by done.
        eapply IH; [| |  |exact Hrun].
        -- by rewrite dict_keys_replace.
        -- done.
        -- intros x y Hx Hy Hxy. rewrite dict_keys_replace in Hx, Hy.
           destruct (Hinv x y Hx Hy Hxy) as [Hq|Harc].
           ++ apply elem_of_cons in Hq as [[= -> ->]|Hq]; [|by left].
              right. intros i' j' dx' dy' Hov' Hdx' Hdy'.
              rewrite dict_get_replace_same in Hdx', Hdy' by done.
              assert (i' = i /\ j' = j /\ dx' = dx /\ dy' = dy) as (-> & -> & -> & ->)
                by (split_and!; congruence).
              apply Forall_forall. intros w Hw.
              destruct (decide (supported i j dy w)) as [|Hns]; [done|].
              destruct Hex. apply Exists_exists. eauto.
           ++ right. apply (arc_consistent_ext d); [by apply dict_get_replace_same..|done].
    + destruct Hrev as [-> ->]. eapply IH; [done..| |exact Hrun].
      intros x y Hx Hy Hxy. destruct (Hinv x y Hx Hy Hxy) as [Hq|Harc]; [|by right].
      apply elem_of_cons in Hq as [[= -> ->]|Hq]; [|by left].
      right. intros i j dx dy Hov'. congruence.
Qed.

(** The loop only shrinks domains; while it goes on, and when it returns
    [True], no domain has become empty. *)
Lemma ac3_loop_shrinks fuel d queue b d' :
  ac3_loop cw fuel d queue = Ok (b, d') ->
  forall x dx, dict_get d x = Some dx ->
    exists dx', dict_get d' x = Some dx' /\ dx' ⊆ dx /\
      (b = true -> dx ≠ [] -> dx' ≠ []).
Proof.
  revert d queue. induction fuel as [|fuel IH]; intros d queue; cbn [ac3_loop]; [done|].
  destruct queue as [|[X Y] queue].
  - intros [= <- <-] x dx Hdx. exists dx. done.
  - intros Hrun. inv_bind Hrun as rev Hrev. destruct rev as [revised d1].
    apply revise_Ok in Hrev. destruct (overlaps cw X Y) as [[i j]|] eqn:Hov.
    + destruct Hrev as (dX & dY & HdX & HdY & -> & ->).
      assert (forall x dx, dict_get d x = Some dx ->
                exists dx1, dict_get (dict_replace d X (filter (supported i j dY) dX)) x
                            = Some dx1 /\ dx1 ⊆ dx /\
                  (x ≠ X -> dx1 = dx) /\ (x = X -> dx1 = filter (supported i j dY) dX))
        as Hstep.
      { intros x dx Hdx. rewrite dict_get_replace. case_decide as HxX.
        - subst x. rewrite Hdx. cbn. eexists. split; [done|].
          assert (dx = dX) as -> by congruence.
          split_and!; [by intros w [_ Hw]%list_elem_of_filter | done | done].
        - exists dx. done. }
      case_bool_decide as Hex.
      * inv_bind Hrun as s Hs. apply dict_lookup_Ok in Hs.
        rewrite dict_get_replace_eq, HdX in Hs. injection Hs as <-.
        case_decide as Hlen.
        -- injection Hrun as <- <-. intros x dx Hdx.
           destruct (Hstep x dx Hdx) as (dx1 & Hdx1 & Hsub & _). exists dx1. done.
        -- intros x dx Hdx. destruct (Hstep x dx Hdx) as (dx1 & Hdx1 & Hsub & Hne & Heq).
           destruct (IH _ _ Hrun x dx1 Hdx1) as (dx' & Hdx' & Hsub' & Hnonempty).
           exists dx'. split_and!; [done | by etrans |].
           intros Hb Hdxne. apply Hnonempty; [done|].
           destruct (decide (x = X)) as [HxX|HxX].
           ++ rewrite (Heq HxX). intros Hnil. by rewrite Hnil in Hlen.
           ++ by rewrite (Hne HxX).
      * rewrite filter_all in Hrun by done. intros x dx Hdx.
        destruct (IH _ _ Hrun x dx) as (dx' & Hdx' & Hsub' & Hnonempty);
          [by rewrite dict_get_replace_same|].
        exists dx'. done.
    + destruct Hrev as [-> ->]. by eapply IH.
Qed.

(** When the loop returns [False], a domain that was not empty has become
    empty. *)
Lemma ac3_loop_false_emptied fuel d queue d' :
  ac3_loop cw fuel d queue = Ok (false, d') ->
  exists X dx, dict_get d X = Some dx /\ dx ≠ [] /\ dict_get d' X = Some [].
Proof.
  revert d queue. induction fuel as [|fuel IH]; intros d queue; cbn [ac3_loop]; [done|].
  destruct queue as [|[X Y] queue]; [done|].
  intros Hrun. inv_bind Hrun as rev Hrev. destruct rev as [revised d1].
  apply revise_Ok in Hrev. destruct (overlaps cw X Y) as [[i j]|] eqn:Hov.
  - destruct Hrev as (dX & dY & HdX & HdY & -> & ->).
    assert (forall Z dz1,
              dict_get (dict_replace d X (filter (supported i j dY) dX)) Z = Some dz1 ->
              dz1 ≠ [] -> exists dz, dict_get d Z = Some dz /\ dz ≠ []) as Hback.
    { intros Z dz1. rewrite dict_get_replace. case_decide as HZ.
      - subst Z. rewrite HdX. cbn. intros [= <-] Hne. exists dX. split; [done|].
        intros ->. by rewrite filter_nil in Hne.
      - eauto. }
    case_bool_decide as Hex.
    + inv_bind Hrun as s Hs. apply dict_lookup_Ok in Hs. case_decide as Hlen.
      * injection Hrun as <-. apply nil_length_inv in Hlen as ->.
        exists X, dX. split_and!; [done| |done].
        intros ->. by apply Exists_nil in Hex.
      * destruct (IH _ _ Hrun) as (Z & dz1 & Hdz1 & Hne & Hempty).
        destruct (Hback Z dz1 Hdz1 Hne) as (dz & Hdz & Hdzne). eauto.
    + destruct (IH _ _ Hrun) as (Z & dz1 & Hdz1 & Hne & Hempty).
      destruct (Hback Z dz1 Hdz1 Hne) as (dz & Hdz & Hdzne). eauto.
  - destruct Hrev as [-> ->]. by eapply IH.
Qed.

Lemma elem_of_all_arcs (d : Domains) x y :
  (x, y) ∈ all_arcs d <-> x ∈ dict_keys d /\ y ∈ dict_keys d /\ x ≠ y.
Proof.
  unfold all_arcs. rewrite list_elem_of_bind. split.
  - intros (x' & Hin & Hx'). apply list_elem_of_bind in Hin as (y' & Hin & Hy').
    case_decide; [|by apply elem_of_nil in Hin].
    apply list_elem_of_singleton in Hin as [= -> ->]. done.
  - intros (Hx & Hy & Hxy). exists x. split; [|done].
    apply list_elem_of_bind. exists y. split; [|done].
    rewrite decide_True by done. left.
Qed.

(** X1. The outcome of [ac3()] on a puzzle whose table of overlaps is
    symmetric. It returns [False] if and only if a domain that was not
    empty is empty afterwards. When it returns [True], every arc between
    distinct variables is consistent, and every domain that was not empty
    is still not empty. *)
Theorem ac3_outcome d b d' :
  symmetric_overlaps cw ->
  dict_keys d ⊆ variables cw ->
  ac3 cw d None = Ok (b, d') ->
  (b = false <->
     exists X dx, dict_get d X = Some dx /\ dx ≠ [] /\ dict_get d' X = Some []) /\
  (b = true ->
     (forall x y, x ≠ y -> arc_consistent cw d' x y) /\
     (forall x dx, dict_get d x = Some dx -> dx ≠ [] ->
        exists dx', dict_get d' x = Some dx' /\ dx' ≠ [])).
Proof.
  intros Hsym Hvars Hrun. unfold ac3 in Hrun.
  pose proof (ac3_loop_shrinks _ _ _ _ _ Hrun) as Hshrink.
  assert (b = true ->
     (forall x y, x ≠ y -> arc_consistent cw d' x y) /\
     (forall x dx, dict_get d x = Some dx -> dx ≠ [] ->
        exists dx', dict_get d' x = Some dx' /\ dx' ≠ [])) as Htrue.
  { intros ->. split.
    - eapply ac3_loop_consistent; [done..| | |exact Hrun].
      + apply Forall_forall. intros [x y] Hin. by apply elem_of_all_arcs in Hin as (_ & _ & ?).
      + intros x y Hx Hy Hxy. left. by apply elem_of_all_arcs.
    - intros x dx Hdx Hne. destruct (Hshrink x dx Hdx) as (dx' & Hdx' & _ & Hnonempty).
      exists dx'. split; [done|]. by apply Hnonempty. }
  split; [|done]. split.
  - intros ->. by eapply ac3_loop_false_emptied.
  - intros (X & dx & Hdx & Hne & Hempty). destruct b; [|done].
    destruct Htrue as [_ Hnonempty]; [done|].
    destruct (Hnonempty X dx Hdx Hne) as (dx' & Hdx' & Hne'). congruence.
Qed.
End Ac3.

(** ** The value ordering *)

Lemma add_keys_NoDup ks l : NoDup ks -> NoDup (add_keys ks l).
Proof.
  revert ks. induction l as [|w l IH]; intros ks Hks; simpl; [done|].
  apply IH. case_decide; [done|].
  apply NoDup_app. split_and!; [done| |apply NoDup_singleton].
  intros x Hx ->%list_elem_of_singleton. done.
Qed.

Lemma elem_of_add_keys ks l w : w ∈ add_keys ks l <-> w ∈ ks \/ w ∈ l.
Proof.
  revert ks. induction l as [|w' l IH]; intros ks; simpl.
  - rewrite elem_of_nil. tauto.
  - rewrite IH, elem_of_cons. case_decide as Hin.
    + split; [tauto|]. intros [?|[->|?]]; tauto.
    + rewrite elem_of_app, list_elem_of_singleton. tauto.
Qed.

Lemma add_keys_fresh ks l :
  NoDup (ks ++ l) -> add_keys ks l = ks ++ l.
Proof.
  revert ks. induction l as [|w l IH]; intros ks Hnd; simpl.
  - by rewrite app_nil_r.
  - rewrite decide_False.
    + rewrite IH; rewrite <- app_assoc; done.
    + apply NoDup_app in Hnd as (_ & Hdisj & _). intros Hin.
      apply (Hdisj w Hin). left.
Qed.

Section OrderDomainValues.
Context (cw : Crossword).

Lemma count_n_vals_keys val dn values :
  val ∈ dict_keys values ->
  exists values', count_n_vals val dn values = Ok values' /\
    dict_keys values' = dict_keys values.
Proof.
  revert values. induction dn as [|n_val dn IH]; intros values Hin; simpl; [eauto|].
  case_decide; [|by apply IH].
  apply dict_get_is_Some in Hin as Hget. destruct Hget as [c Hc].
  unfold dict_lookup. rewrite Hc. simpl.
  destruct (IH (dict_set values val (c + 1))) as (values' & Hrun & Hkeys).
  { by rewrite dict_keys_set_in. }
  exists values'. split; [done|]. by rewrite Hkeys, dict_keys_set_in.
Qed.

Lemma count_neighbors_keys d val ns values :
  ns ⊆ dict_keys d -> val ∈ dict_keys values ->
  exists values', count_neighbors d val ns values = Ok values' /\
    dict_keys values' = dict_keys values.
Proof.
  revert values. induction ns as [|n ns IH]; intros values Hsub Hin; simpl; [eauto|].
  assert (n ∈ dict_keys d) as Hn by (apply Hsub; left).
  apply dict_get_is_Some in Hn as [dn Hdn].
  unfold dict_lookup. rewrite Hdn. simpl.
  destruct (count_n_vals_keys val dn values Hin) as (values1 & Hrun1 & Hkeys1).
  rewrite Hrun1. simpl.
  destruct (IH values1) as (values2 & Hrun2 & Hkeys2).
  { intros v Hv. apply Hsub. by right. }
  { by rewrite Hkeys1. }
  exists values2. split; [done|]. by rewrite Hkeys2.
Qed.

Lemma order_values_loop_keys d var assignment dv values :
  neighbors cw var ⊆ dict_keys d ->
  exists values', order_values_loop cw d var assignment dv values = Ok values' /\
    dict_keys values' = add_keys (dict_keys values) dv.
Proof.
  intros Hsub. revert values.
  induction dv as [|val dv IH]; intros values; simpl; [eauto|].
  destruct (count_neighbors_keys d val (neighbors cw var) (dict_set values val 0) Hsub)
    as (values1 & Hrun1 & Hkeys1); [apply elem_of_dict_keys_set|].
  rewrite Hrun1. simpl.
  destruct (IH values1) as (values2 & Hrun2 & Hkeys2).
  exists values2. split; [done|].
  by rewrite Hkeys2, Hkeys1, dict_keys_set.
Qed.

(** The values that [backtrack] tries are candidates of the variable. *)
Lemma order_domain_values_candidates d var assignment dv :
  dict_get d var = Some dv ->
  neighbors cw var ⊆ dict_keys d ->
  exists values, order_domain_values cw d var assignment = Ok values /\
    dict_keys values ⊆ dv.
Proof.
  intros Hdv Hsub. unfold order_domain_values, dict_lookup. rewrite Hdv. simpl.
  destruct (order_values_loop_keys d var assignment dv [] Hsub) as (values & Hrun & Hkeys).
  rewrite Hrun. simpl. exists values. split; [done|].
  intros w. rewrite Hkeys, elem_of_add_keys. intros [Hin|Hin]; [|done].
  by apply elem_of_nil in Hin.
Qed.

(** C10. On a store that holds [var] and its neighbors,
    [order_domain_values] returns a dictionary whose keys, which the loop
    of [backtrack] iterates, are the words of [domain[var]], each exactly
    once: no key is repeated, a word is a key if and only if it is in the
    domain, and the keys come in the order of the domain. *)
Theorem order_domain_values_exact d var assignment dv :
  dict_get d var = Some dv ->
  neighbors cw var ⊆ dict_keys d ->
  exists values, order_domain_values cw d var assignment = Ok values /\
    NoDup (dict_keys values) /\
    (forall w, w ∈ dict_keys values <-> w ∈ dv) /\
    (NoDup dv -> dict_keys values = dv).
Proof.
  intros Hdv Hsub. unfold order_domain_values, dict_lookup. rewrite Hdv. simpl.
  destruct (order_values_loop_keys d var assignment dv [] Hsub) as (values & Hrun & Hkeys).
  rewrite Hrun. simpl. exists values. rewrite Hkeys. split_and!; [done| | |].
  - apply add_keys_NoDup. constructor.
  - intros w. rewrite elem_of_add_keys. simpl. rewrite elem_of_nil. tauto.
  - intros Hnd. by apply (add_keys_fresh [] dv).
Qed.
(** *** The scores *)

Lemma count_n_vals_score val dn values values' c :
  NoDup dn ->
  dict_get values val = Some c ->
  count_n_vals val dn values = Ok values' ->
  dict_get values' val = Some (c + if decide (val ∈ dn) then 1 else 0) /\
  forall w, w ≠ val -> dict_get values' w = dict_get values w.
Proof.
  intros Hnd. revert values c.
  induction Hnd as [|n_val dn Hnin Hnd IH]; intros values c Hc; cbn [count_n_vals].
  - intros [= <-]. rewrite decide_False by apply not_elem_of_nil.
    rewrite Nat.add_0_r. done.
  - destruct (decide (val = n_val)) as [<-|Hne].
    + unfold dict_lookup. rewrite Hc. cbn [mbind result_bind]. intros Hrun.
      apply (IH _ (c + 1)) in Hrun as [Hval Hother];
        [|by rewrite dict_get_set, decide_True].
      rewrite decide_False in Hval by done.
      rewrite decide_True by left. split; [by rewrite Hval, Nat.add_0_r|].
      intros w Hw. rewrite Hother by done.
      by rewrite dict_get_set, decide_False.
    + intros Hrun. apply (IH _ c Hc) in Hrun as [Hval Hother].
      split; [|done]. rewrite Hval. do 2 f_equal.
      destruct (decide (val ∈ dn)) as [Hin|Hin].
      * by rewrite decide_True by (by right).
      * rewrite decide_False; [done|]. intros [?|?]%elem_of_cons; done.
Qed.

Lemma count_neighbors_score d val ns values values' c :
  (forall n dn, n ∈ ns -> dict_get d n = Some dn -> NoDup dn) ->
  dict_get values val = Some c ->
  count_neighbors d val ns values = Ok values' ->
  dict_get values' val = Some (c + length (filter (candidate d val) ns)) /\
  forall w, w ≠ val -> dict_get values' w = dict_get values w.
Proof.
  revert values c. induction ns as [|n ns IH]; intros values c Hnd Hc; cbn [count_neighbors].
  - intros [= <-]. rewrite filter_nil. cbn. by rewrite Nat.add_0_r.
  - intros Hrun. inv_bind Hrun as dn Hdn. apply dict_lookup_Ok in Hdn.
    inv_bind Hrun as values1 Hvalues1.
    apply (count_n_vals_score _ _ _ _ c) in Hvalues1 as [Hval1 Hother1];
      [|by apply (Hnd n); [left|] | done].
    apply (IH _ _ (fun n' dn' Hn' => Hnd n' dn' (list_elem_of_further _ _ _ Hn')) Hval1)
      in Hrun as [Hval Hother].
    split.
    + rewrite Hval. f_equal. rewrite filter_cons.
      assert (candidate d val n <-> val ∈ dn) as Hcand
        by (unfold candidate; by rewrite Hdn).
      destruct (decide (val ∈ dn)), (decide (candidate d val n));
        cbn [length]; try tauto; lia.
    + intros w Hw. by rewrite Hother, Hother1.
Qed.

Lemma order_values_loop_score d var assignment dv values values' :
  (forall n dn, n ∈ neighbors cw var -> dict_get d n = Some dn -> NoDup dn) ->
  NoDup dv ->
  order_values_loop cw d var assignment dv values = Ok values' ->
  forall w, dict_get values' w =
    if decide (w ∈ dv) then Some (score cw d var w) else dict_get values w.
Proof.
  intros Hdoms Hnd. revert values.
  induction Hnd as [|val dv Hnin Hnd IH]; intros values; cbn [order_values_loop].
  - intros [= <-] w. by rewrite decide_False by apply not_elem_of_nil.
  - unfold word_in_assignment. intros Hrun. inv_bind Hrun as values1 Hvalues1.
    apply (count_neighbors_score _ _ _ _ _ 0) in Hvalues1 as [Hval1 Hother1];
      [|done|by rewrite dict_get_set, decide_True].
    intros w. rewrite (IH _ Hrun w).
    destruct (decide (w = val)) as [->|Hne].
    + rewrite decide_False by done. rewrite decide_True by left. by rewrite Hval1.
    + rewrite Hother1, dict_get_set, (decide_False (P := val = w)) by done.
      destruct (decide (w ∈ dv)) as [Hin|Hin].
      * by rewrite decide_True by (by right).
      * rewrite decide_False; [done|]. intros [?|?]%elem_of_cons; done.
Qed.

(** X3. In the dictionary that [order_domain_values] returns, the value of
    a word of the domain is its score, as the specification defines it. *)
Theorem order_domain_values_scores d var assignment dv values :
  dict_get d var = Some dv ->
  NoDup dv ->
  (forall n dn, n ∈ neighbors cw var -> dict_get d n = Some dn -> NoDup dn) ->
  order_domain_values cw d var assignment = Ok values ->
  forall w, w ∈ dv -> dict_get values w = Some (score cw d var w).
Proof.
  intros Hdv Hnd Hdoms. unfold order_domain_values, dict_lookup. rewrite Hdv.
  cbn [mbind result_bind]. intros Hrun. inv_bind Hrun as values' Hvalues'.
  injection Hrun as <-. intros w Hw.
  rewrite (order_values_loop_score _ _ _ _ _ _ Hdoms Hnd Hvalues' w).
  by rewrite decide_True.
Qed.
End OrderDomainValues.

(** ** The variable selection *)

Lemma foldl_min_spec (n : nat) (l : list nat) :
  foldl Nat.min n l ∈ n :: l /\ forall x, x ∈ n :: l -> foldl Nat.min n l <= x.
Proof.
  revert n. induction l as [|a l IH]; intros n; simpl.
  - split; [left|]. intros x ->%list_elem_of_singleton. done.
  - destruct (IH (Nat.min n a)) as [Hin Hle]. split.
    + apply elem_of_cons in Hin as [Heq|Hin]; [|by do 2 right].
      rewrite Heq. destruct (Nat.min_spec n a) as [[_ ->]|[_ ->]]; [left | right; left].
    + intros x Hx. assert (foldl Nat.min (Nat.min n a) l <= Nat.min n a) by (apply Hle; left).
      apply elem_of_cons in Hx as [->|Hx]; [lia|].
      apply elem_of_cons in Hx as [->|Hx]; [lia|].
      apply Hle. by right.
Qed.

Lemma foldl_max_spec (n : nat) (l : list nat) : foldl Nat.max n l ∈ n :: l.
Proof.
  revert n. induction l as [|a l IH]; intros n; simpl; [left|].
  specialize (IH (Nat.max n a)).
  apply elem_of_cons in IH as [Heq|Hin]; [|by do 2 right].
  rewrite Heq. destruct (Nat.max_spec n a) as [[_ ->]|[_ ->]]; [right; left | left].
Qed.

Lemma py_min_spec (l : list nat) :
  l ≠ [] -> exists m, py_min l = Ok m /\ m ∈ l /\ forall x, x ∈ l -> m <= x.
Proof.
  destruct l as [|n l]; [done|]. intros _. exists (foldl Nat.min n l).
  split; [done|]. apply foldl_min_spec.
Qed.

Lemma py_max_spec (l : list nat) :
  l ≠ [] -> exists m, py_max l = Ok m /\ m ∈ l.
Proof.
  destruct l as [|n l]; [done|]. intros _. exists (foldl Nat.max n l).
  split; [done|]. apply foldl_max_spec.
Qed.

Lemma first_spec {A} (l : list A) : l ≠ [] -> exists a, first l = Ok a /\ a ∈ l.
Proof. destruct l as [|a l]; [done|]. intros _. exists a. split; [done | left]. Qed.

(** The keys of a dictionary whose value is [n]. *)
Lemma keys_with_value_spec {K} (rv : dict K nat) (n : nat) (k : K) :
  k ∈ (filter (fun kv => kv.2 = n) rv).*1 <-> (k, n) ∈ rv.
Proof.
  rewrite list_elem_of_fmap. split.
  - intros ([k' n'] & -> & [Heq Hin]%list_elem_of_filter). simpl in *. by subst.
  - intros Hin. exists (k, n). split; [done|]. by apply list_elem_of_filter.
Qed.

Section Select.
Context (cw : Crossword).

Lemma count_remaining_spec d l rv :
  l ⊆ dict_keys d -> NoDup (dict_keys rv) ->
  exists rv', count_remaining d l rv = Ok rv' /\
    NoDup (dict_keys rv') /\
    forall k, dict_get rv' k =
      if decide (k ∈ l) then length <$> dict_get d k else dict_get rv k.
Proof.
  revert rv. induction l as [|var l IH]; intros rv Hsub Hnd; cbn [count_remaining].
  - exists rv. split_and!; [done..|]. intros k.
    case_decide as Hin; [by apply elem_of_nil in Hin | done].
  - assert (var ∈ dict_keys d) as Hvar by (apply Hsub; left).
    apply dict_get_is_Some in Hvar as [s Hs].
    unfold dict_lookup. rewrite Hs. cbn [mbind result_bind].
    destruct (IH (dict_set rv var (length s))) as (rv' & Hrun & Hnd' & Hget).
    { intros v Hv. apply Hsub. by right. }
    { by apply dict_keys_set_NoDup. }
    exists rv'. split_and!; [done..|]. intros k. rewrite Hget, dict_get_set.
    destruct (decide (k ∈ l)) as [Hin|Hnin].
    + by rewrite decide_True by (by right).
    + destruct (decide (var = k)) as [->|Hne].
      * rewrite decide_True by left. by rewrite Hs.
      * rewrite decide_False; [done|]. intros [?|?]%elem_of_cons; congruence.
Qed.

(** [select_unassigned_variable] returns, when a variable is unassigned,
    an unassigned variable whose domain is the smallest. *)
Lemma select_unassigned_variable_spec d assignment :
  (exists v, v ∈ dict_keys d /\ v ∉ dict_keys assignment) ->
  exists var s, select_unassigned_variable cw d assignment = Ok var /\
    (var ∉ dict_keys assignment) /\
    dict_get d var = Some s /\
    forall v s', v ∉ dict_keys assignment -> dict_get d v = Some s' ->
      length s <= length s'.
Proof.
  intros (v0 & Hv0 & Hv0a). unfold select_unassigned_variable.
  set (unassigned := filter (fun var => var ∉ dict_keys assignment) (dict_keys d)).
  destruct (count_remaining_spec d unassigned []) as (rv & Hrun & Hnd & Hget).
  { intros v [_ Hv]%list_elem_of_filter. done. }
  { constructor. }
  rewrite Hrun. cbn [mbind result_bind].
  assert (forall k n, (k, n) ∈ rv <->
            k ∈ unassigned /\ length <$> dict_get d k = Some n) as Hrv.
  { intros k n. split.
    - intros Hin. apply (dict_get_elem_NoDup _ _ _ Hnd) in Hin.
      rewrite Hget in Hin. case_decide; [done | discriminate].
    - intros [Hin Hlen]. apply dict_get_Some_elem. rewrite Hget.
      by rewrite decide_True. }
  assert (v0 ∈ unassigned) as Hv0u by (by apply list_elem_of_filter).
  apply dict_get_is_Some in Hv0 as [s0 Hs0].
  destruct (py_min_spec (dict_values rv)) as (min_val & Hmin & Hmin_in & Hmin_le).
  { intros Hnil. assert (length s0 ∈ dict_values rv) as Hin.
    - apply elem_of_dict_values. exists v0. apply Hrv. by rewrite Hs0.
    - rewrite Hnil in Hin. by apply elem_of_nil in Hin. }
  rewrite Hmin. cbn [mbind result_bind].
  set (keys := (filter (fun kv => kv.2 = min_val) rv).*1).
  assert (keys ≠ []) as Hkeys.
  { apply elem_of_dict_values in Hmin_in as [k Hk].
    apply keys_with_value_spec in Hk. fold keys in Hk.
    intros Hnil. rewrite Hnil in Hk. by apply elem_of_nil in Hk. }
  assert (exists var, var ∈ keys /\
    (if decide (length keys = 1) then first keys
     else
       let degree_check :=
         foldl (fun dc key => dict_set dc key (length (neighbors cw key))) [] keys in
       py_max (dict_values degree_check) ≫= fun max_val =>
         first (filter (fun kv => kv.2 = max_val) degree_check).*1) = Ok var)
    as (var & Hvar & Hsel).
  { case_decide.
    - destruct (first_spec keys Hkeys) as (var & ? & ?). eauto.
    - cbn zeta.
      set (degree_check :=
        foldl (fun dc key => dict_set dc key (length (neighbors cw key))) [] keys).
      destruct (py_max_spec (dict_values degree_check)) as (max_val & Hmax & Hmax_in).
      { destruct keys as [|k keys'] eqn:Ek; [done|].
        assert (k ∈ dict_keys degree_check) as Hk.
        { apply elem_of_filled_keys. right. left. }
        apply elem_of_dict_keys in Hk as [n Hk].
        intros Hnil. assert (n ∈ dict_values degree_check) as Hn.
        { apply elem_of_dict_values. eauto. }
        rewrite Hnil in Hn. by apply elem_of_nil in Hn. }
      rewrite Hmax. cbn [mbind result_bind].
      apply elem_of_dict_values in Hmax_in as [k Hk].
      destruct (first_spec (filter (fun kv => kv.2 = max_val) degree_check).*1)
        as (var & Hfirst & Hvar).
      { apply keys_with_value_spec in Hk. intros Hnil. rewrite Hnil in Hk.
        by apply elem_of_nil in Hk. }
      exists var. split; [|done].
      apply keys_with_value_spec in Hvar.
      assert (var ∈ dict_keys degree_check) as Hin.
      { apply elem_of_dict_keys. eauto. }
      apply elem_of_filled_keys in Hin as [Hin|Hin]; [|done].
      by apply elem_of_nil in Hin. }
  apply keys_with_value_spec, Hrv in Hvar as [Hvar Hlen].
  apply list_elem_of_filter in Hvar as [Hvar_a Hvar_d].
  destruct (dict_get d var) as [s|] eqn:Hs; [|discriminate].
  exists var, s. split_and!; [exact Hsel | done..|].
  intros v s' Hv Hs'. injection Hlen as <-. apply Hmin_le.
  apply elem_of_dict_values. exists v. apply Hrv. split.
  - apply list_elem_of_filter. split; [done|]. apply dict_get_is_Some. eauto.
  - by rewrite Hs'.
Qed.
End Select.

(** ** Backtracking *)

Section Backtrack.
Context (cw : Crossword).

Lemma assignment_complete_false d assignment :
  assignment_complete d assignment = false ->
  exists v, v ∈ dict_keys d /\ v ∉ dict_keys assignment.
Proof.
  unfold assignment_complete. intros Hc.
  induction (dict_keys d) as [|k ks IH]; simpl in Hc; [discriminate|].
  apply andb_false_iff in Hc as [Hk|Hks].
  - exists k. split; [left|]. by apply bool_decide_eq_false in Hk.
  - destruct (IH Hks) as (v & ? & ?). exists v. split; [by right | done].
Qed.

Lemma assignment_complete_true d assignment v :
  assignment_complete d assignment = true ->
  v ∈ dict_keys d -> v ∈ dict_keys assignment.
Proof.
  unfold assignment_complete. intros Hc Hv.
  rewrite forallb_forall in Hc. apply list_elem_of_In, Hc in Hv.
  by apply bool_decide_eq_true in Hv.
Qed.

(** The variable that [backtrack] selects is unassigned. *)
Lemma selected_unassigned d assignment var :
  assignment_complete d assignment = false ->
  select_unassigned_variable cw d assignment = Ok var ->
  var ∉ dict_keys assignment.
Proof.
  intros Hc Hsel.
  destruct (select_unassigned_variable_spec cw d assignment) as (var' & s & Hsel' & Hun & _);
    [by apply assignment_complete_false|].
  congruence.
Qed.

Lemma try_values_restores recurse d var vals assignment assignment' :
  restores recurse ->
  var ∉ dict_keys assignment ->
  try_values cw recurse d var vals assignment = Ok (None, assignment') ->
  assignment' = assignment.
Proof.
  intros Hrec Hvar. induction vals as [|val vals IH]; cbn [try_values].
  - by intros [= <-].
  - intros Hrun. inv_bind Hrun as c Hc. destruct c.
    + inv_bind Hrun as out Hout. destruct out as [[r|] a2]; [discriminate|].
      apply Hrec in Hout as ->. rewrite dict_set_del_fresh in Hrun by done.
      by apply IH.
    + rewrite dict_set_del_fresh in Hrun by done. by apply IH.
Qed.

Lemma backtrack_restores fuel d : restores (backtrack cw fuel d).
Proof.
  induction fuel as [|fuel IH]; intros assignment assignment'; cbn [backtrack]; [done|].
  destruct (assignment_complete d assignment) eqn:Hc; [done|].
  intros Hrun. inv_bind Hrun as var Hvar. inv_bind Hrun as values Hvalues.
  eapply try_values_restores; [exact IH | | exact Hrun].
  by eapply selected_unassigned.
Qed.

(** C9. When [backtrack(assignment)] returns [None], the dictionary
    [assignment] is left exactly as the call found it: the same keys with
    the same words, in the same order. *)
Theorem backtrack_None_restores fuel d assignment assignment' :
  backtrack cw fuel d assignment = Ok (None, assignment') ->
  assignment' = assignment.
Proof. apply backtrack_restores. Qed.
End Backtrack.

(** ** What an accepted assignment satisfies *)

Section Consistent.
Context (cw : Crossword).

Lemma check_n_vals_true assignment key i j dn :
  check_n_vals assignment key i j dn = Ok true ->
  forall n_val, n_val ∈ dn ->
    exists w, dict_get assignment key = Some w /\ agree i j w n_val.
Proof.
  induction dn as [|n_val0 dn IH]; cbn [check_n_vals]; intros Hrun n_val Hin.
  - by apply elem_of_nil in Hin.
  - inv_bind Hrun as w Hw. inv_bind Hrun as a Ha. inv_bind Hrun as b Hb.
    apply dict_lookup_Ok in Hw. unfold str_index in Ha, Hb.
    destruct (String.get i w) as [c1|] eqn:E1; [|discriminate].
    destruct (String.get j n_val0) as [c2|] eqn:E2; [|discriminate].
    injection Ha as <-. injection Hb as <-.
    case_decide as Hne; [discriminate|].
    apply elem_of_cons in Hin as [->|Hin]; [|by apply IH].
    exists w. split; [done|]. unfold agree. rewrite E1, E2.
    by destruct (decide (c1 = c2)).
Qed.

Lemma check_neighbors_true d assignment key ns :
  check_neighbors cw d assignment key ns = Ok true ->
  forall n, n ∈ ns ->
    exists i j dn, overlaps cw key n = Some (i, j) /\
      dict_get d n = Some dn /\
      check_n_vals assignment key i j dn = Ok true.
Proof.
  induction ns as [|n0 ns IH]; cbn [check_neighbors]; intros Hrun n Hin.
  - by apply elem_of_nil in Hin.
  - destruct (overlaps cw key n0) as [[i j]|] eqn:Hov; [|discriminate].
    inv_bind Hrun as dn Hdn. inv_bind Hrun as ok Hok. apply dict_lookup_Ok in Hdn.
    destruct ok; [|discriminate].
    apply elem_of_cons in Hin as [->|Hin]; [|by apply IH].
    exists i, j, dn. done.
Qed.

Lemma consistent_items_true d assignment items value_list :
  consistent_items cw d assignment items value_list = Ok true ->
  Forall (fun kv => var_length kv.1 = len kv.2) items /\
  (NoDup value_list -> NoDup (value_list ++ items.*2)) /\
  Forall (fun kv =>
    check_neighbors cw d assignment kv.1 (neighbors cw kv.1) = Ok true) items.
Proof.
  revert value_list.
  induction items as [|[key value] items IH]; intros value_list; cbn [consistent_items].
  - intros _. rewrite fmap_nil, app_nil_r. done.
  - case_decide as Hlen; [discriminate|].
    case_decide as Hdup; [discriminate|].
    intros Hrun. inv_bind Hrun as ok Hok. destruct ok; [|discriminate].
    destruct (IH _ Hrun) as (Hlens & Hnd & Hnb).
    split_and!.
    + constructor; [simpl; lia | done].
    + intros Hvl. rewrite fmap_cons, (cons_middle value), app_assoc. apply Hnd.
      apply NoDup_app. split_and!; [done| |apply NoDup_singleton].
      intros w Hw ->%list_elem_of_singleton. done.
    + constructor; done.
Qed.

Lemma consistent_true d assignment :
  consistent cw d assignment = Ok true ->
  Forall (fun kv => var_length kv.1 = len kv.2) assignment /\
  NoDup (dict_values assignment) /\
  Forall (fun kv =>
    check_neighbors cw d assignment kv.1 (neighbors cw kv.1) = Ok true) assignment.
Proof.
  intros Hrun. apply consistent_items_true in Hrun as (Hlens & Hnd & Hnb).
  split_and!; [done | | done]. apply Hnd. constructor.
Qed.

Lemma from_domains_set d assignment var val dv :
  from_domains d assignment ->
  dict_get d var = Some dv -> val ∈ dv ->
  from_domains d (dict_set assignment var val).
Proof.
  unfold from_domains, dict_set. intros Ha Hdv Hval.
  destruct (dict_get assignment var) as [w|].
  - induction Ha as [|[k w0] a Hk Ha IH]; cbn [dict_replace]; [done|].
    case_decide; subst; constructor; try done. simpl. by rewrite Hdv.
  - apply Forall_app. split; [done|]. apply Forall_singleton. simpl. by rewrite Hdv.
Qed.

Lemma try_values_sound recurse d var dv vals assignment r assignment' :
  restores recurse ->
  (forall a1 out, recurse a1 = Ok out -> sound_outcome cw d a1 out) ->
  var ∉ dict_keys assignment ->
  dict_get d var = Some dv ->
  vals ⊆ dv ->
  try_values cw recurse d var vals assignment = Ok (Some r, assignment') ->
  assignment' = r /\
  assignment_complete d r = true /\
  consistent cw d r = Ok true /\
  (from_domains d assignment -> from_domains d r).
Proof.
  intros Hrest Hrec Hvar Hdv.
  induction vals as [|val vals IH]; cbn [try_values]; intros Hsub Hrun; [done|].
  assert (val ∈ dv) as Hval by (apply Hsub; left).
  assert (vals ⊆ dv) as Hsub' by (intros w Hw; apply Hsub; by right).
  inv_bind Hrun as c Hc. destruct c.
  - inv_bind Hrun as out Hout. destruct out as [[r'|] a2].
    + injection Hrun as -> ->. apply Hrec in Hout as (Hr & Hcompl & Hcons & Hfrom).
      cbn in Hr. split_and!; [done..| |].
      * destruct Hcons as [->|?]; done.
      * intros Hd. apply Hfrom. by eapply from_domains_set.
    + apply Hrest in Hout as ->. rewrite dict_set_del_fresh in Hrun by done.
      by apply IH.
  - rewrite dict_set_del_fresh in Hrun by done. by apply IH.
Qed.

Lemma neighbors_variables var : neighbors cw var ⊆ variables cw.
Proof. unfold neighbors. intros v [_ Hv]%list_elem_of_filter. done. Qed.

Lemma backtrack_sound fuel d assignment out :
  variables cw ⊆ dict_keys d ->
  backtrack cw fuel d assignment = Ok out ->
  sound_outcome cw d assignment out.
Proof.
  intros Hvars. revert assignment out.
  induction fuel as [|fuel IH]; intros assignment out; cbn [backtrack]; [done|].
  destruct (assignment_complete d assignment) eqn:Hc.
  - intros [= <-]. unfold sound_outcome. cbn. split_and!; [done..|auto|done].
  - intros Hrun. inv_bind Hrun as var Hvar. inv_bind Hrun as values Hvalues.
    destruct (select_unassigned_variable_spec cw d assignment)
      as (var' & dv & Hsel & Hun & Hdv & _); [by apply assignment_complete_false|].
    assert (var' = var) as -> by congruence.
    destruct (order_domain_values_candidates cw d var assignment dv Hdv)
      as (values' & Hodv & Hkeys).
    { intros v Hv. apply Hvars. by apply neighbors_variables in Hv. }
    assert (values' = values) as -> by congruence.
    destruct out as [[r|] assignment']; [|done].
    eapply try_values_sound in Hrun as (-> & ? & ? & ?);
      [|apply backtrack_restores|apply IH|done|exact Hdv|done].
    unfold sound_outcome. cbn. split_and!; auto.
Qed.
End Consistent.

(** ** Termination *)

Lemma returns_bind {A B} (m : result A) (f : A -> result B) :
  returns m -> (forall a, m = Ok a -> returns (f a)) -> returns (m ≫= f).
Proof. destruct m; cbn; unfold returns; [eauto | done | done]. Qed.

Lemma returns_Ok {A} (a : A) : returns (Ok a).
Proof. done. Qed.

Lemma returns_Raise {A} (e : exn) : returns (@Raise A e).
Proof. done. Qed.

Lemma returns_str_index w k : returns (str_index w k).
Proof. unfold str_index. by destruct (String.get k w). Qed.

Lemma returns_set_remove w s : returns (set_remove w s).
Proof. unfold set_remove. by case_decide. Qed.

Lemma returns_dict_lookup {K V} `{EqDecision K} (d : dict K V) k :
  returns (dict_lookup d k).
Proof. unfold dict_lookup. by destruct (dict_get d k). Qed.

Lemma returns_dict_del {K V} `{EqDecision K} (d : dict K V) k :
  returns (dict_del d k).
Proof. unfold dict_del. by destruct (dict_get d k). Qed.

Lemma returns_first {A} (l : list A) : returns (first l).
Proof. by destruct l. Qed.

Lemma returns_py_min l : returns (py_min l).
Proof. by destruct l. Qed.

Lemma returns_py_max l : returns (py_max l).
Proof. by destruct l. Qed.

Create HintDb returns discriminated.
#[export] Hint Resolve returns_Ok returns_Raise returns_str_index returns_set_remove
  returns_dict_lookup returns_dict_del returns_first returns_py_min returns_py_max
  : returns.

Ltac returns_step :=
  repeat first
    [ apply returns_bind; [|intros ? _]
    | case_decide
    | match goal with |- returns (if ?b then _ else _) => destruct b end
    | match goal with |- returns (match ?x with (_, _) => _ end) => destruct x end
    | progress eauto with returns ].

Lemma returns_enforce_values key copy s : returns (enforce_values key copy s).
Proof. revert s. induction copy; intros s; cbn [enforce_values]; returns_step. Qed.

Lemma returns_enforce_keys ks d : returns (enforce_keys ks d).
Proof.
  revert d. induction ks; intros d; cbn [enforce_keys]; returns_step.
  apply returns_enforce_values.
Qed.

Lemma returns_enforce_node_consistency d : returns (enforce_node_consistency d).
Proof. apply returns_enforce_keys. Qed.

Section Returns.
Context (cw : Crossword).

Lemma returns_has_support val_x i j dy : returns (has_support val_x i j dy).
Proof. induction dy; cbn [has_support]; returns_step. Qed.

Lemma returns_revise_scan i j dx dy remove revised :
  returns (revise_scan i j dx dy remove revised).
Proof.
  revert remove revised. induction dx; intros remove revised; cbn [revise_scan];
    returns_step; apply returns_has_support.
Qed.

Lemma returns_remove_words remove s : returns (remove_words remove s).
Proof. revert s. induction remove; intros s; cbn [remove_words]; returns_step. Qed.

Lemma returns_revise d x y : returns (revise cw d x y).
Proof.
  unfold revise. destruct (overlaps cw x y) as [[i j]|]; returns_step.
  - apply returns_revise_scan.
  - apply returns_remove_words.
Qed.

Lemma returns_check_n_vals assignment key i j dn :
  returns (check_n_vals assignment key i j dn).
Proof. induction dn; cbn [check_n_vals]; returns_step. Qed.

Lemma returns_check_neighbors d assignment key ns :
  returns (check_neighbors cw d assignment key ns).
Proof.
  induction ns; cbn [check_neighbors]; [returns_step|].
  destruct (overlaps cw key a) as [[i j]|]; returns_step.
  apply returns_check_n_vals.
Qed.

Lemma returns_consistent_items d assignment items value_list :
  returns (consistent_items cw d assignment items value_list).
Proof.
  revert value_list. induction items as [|[key value] items IH]; intros value_list;
    cbn [consistent_items]; returns_step.
  apply returns_check_neighbors.
Qed.

Lemma returns_consistent d assignment : returns (consistent cw d assignment).
Proof. apply returns_consistent_items. Qed.

Lemma returns_count_n_vals val dn values : returns (count_n_vals val dn values).
Proof. revert values. induction dn; intros values; cbn [count_n_vals]; returns_step. Qed.

Lemma returns_count_neighbors d val ns values :
  returns (count_neighbors d val ns values).
Proof.
  revert values. induction ns; intros values; cbn [count_neighbors]; returns_step.
  apply returns_count_n_vals.
Qed.

Lemma returns_order_values_loop d var assignment dv values :
  returns (order_values_loop cw d var assignment dv values).
Proof.
  revert values. induction dv; intros values; cbn [order_values_loop]; returns_step.
  apply returns_count_neighbors.
Qed.

Lemma returns_order_domain_values d var assignment :
  returns (order_domain_values cw d var assignment).
Proof. unfold order_domain_values. returns_step. apply returns_order_values_loop. Qed.

Lemma returns_count_remaining d unassigned remaining_values :
  returns (count_remaining d unassigned remaining_values).
Proof.
  revert remaining_values. induction unassigned; intros remaining_values;
    cbn [count_remaining]; returns_step.
Qed.

Lemma returns_select_unassigned_variable d assignment :
  returns (select_unassigned_variable cw d assignment).
Proof.
  unfold select_unassigned_variable. returns_step. apply returns_count_remaining.
Qed.
End Returns.

Lemma filter_length_lt {A} (P Q : A -> Prop)
    `{forall x, Decision (P x)} `{forall x, Decision (Q x)} (l : list A) (x0 : A) :
  (forall x, P x -> Q x) -> x0 ∈ l -> Q x0 -> ¬ P x0 ->
  length (filter P l) < length (filter Q l).
Proof.
  intros HPQ Hin HQ HP.
  assert (forall l', length (filter P l') <= length (filter Q l')) as Hle.
  { induction l' as [|a l' IH]; [done|]. rewrite !filter_cons.
    destruct (decide (P a)) as [Ha|Ha].
    - rewrite decide_True by auto. simpl. lia.
    - destruct (decide (Q a)); simpl; lia. }
  induction l as [|a l IH]; [by apply elem_of_nil in Hin|].
  rewrite !filter_cons. apply elem_of_cons in Hin as [<-|Hin].
  - rewrite decide_False, decide_True by done. specialize (Hle l). simpl. lia.
  - specialize (IH Hin). destruct (decide (P a)) as [Ha|Ha].
    + rewrite decide_True by auto. simpl. lia.
    + destruct (decide (Q a)); simpl; lia.
Qed.

Lemma unassigned_count_set d assignment var val :
  var ∈ dict_keys d -> var ∉ dict_keys assignment ->
  unassigned_count d (dict_set assignment var val) < unassigned_count d assignment.
Proof.
  intros Hd Ha. unfold unassigned_count.
  apply (filter_length_lt _ _ _ var); [|done|done|].
  - intros v Hv Hin. apply Hv. rewrite dict_keys_set. case_decide; [done|].
    apply elem_of_app. by left.
  - intros Hv. apply Hv. apply elem_of_dict_keys_set.
Qed.

Lemma total_size_replace (d : Domains) x s s' :
  dict_get d x = Some s ->
  total_size (dict_replace d x s') + length s = total_size d + length s'.
Proof.
  unfold total_size, dict_values.
  induction d as [|[k v] d IH]; cbn [dict_get dict_replace]; [done|].
  case_decide.
  - intros [= ->]. rewrite !fmap_cons. cbn. lia.
  - intros Hget. specialize (IH Hget). rewrite !fmap_cons. cbn in *. lia.
Qed.

Section Termination.
Context (cw : Crossword).

(** A revision never grows the store, and shrinks it when it reports a
    change. *)
Lemma revise_size d x y revised d' :
  revise cw d x y = Ok (revised, d') ->
  total_size d' + (if revised then 1 else 0) <= total_size d.
Proof.
  intros Hrun. apply revise_Ok in Hrun.
  destruct (overlaps cw x y) as [[i j]|].
  - destruct Hrun as (dx & dy & Hdx & Hdy & -> & ->).
    pose proof (total_size_replace d x dx (filter (supported i j dy) dx) Hdx) as Hsize.
    case_bool_decide as Hex.
    + apply Exists_exists in Hex as (w & Hw & Hns).
      pose proof (length_filter_lt (supported i j dy) dx w Hw Hns). lia.
    + pose proof (length_filter (supported i j dy) dx). lia.
  - destruct Hrun as [-> ->]. lia.
Qed.

Lemma ac3_loop_returns fuel d queue :
  length queue + total_size d * length (variables cw) < fuel ->
  returns (ac3_loop cw fuel d queue).
Proof.
  revert d queue. induction fuel as [|fuel IH]; intros d queue Hfuel; [lia|].
  cbn [ac3_loop]. destruct queue as [|[X Y] queue]; [done|].
  apply returns_bind; [apply returns_revise|].
  intros [revised d1] Hrev. apply revise_size in Hrev. cbn [length] in Hfuel.
  destruct revised.
  - apply returns_bind; [apply returns_dict_lookup|]. intros dX _.
    case_decide; [done|]. apply IH.
    rewrite length_app, length_fmap.
    pose proof (length_filter (fun Z => Z ≠ Y) (neighbors cw X)).
    pose proof (length_filter (fun v => v ≠ X /\ is_Some (overlaps cw v X)) (variables cw)).
    unfold neighbors in *. nia.
  - apply IH. nia.
Qed.

(** [ac3] is not cut by its fuel: the loop ends. *)
Lemma ac3_returns d arcs : returns (ac3 cw d arcs).
Proof. unfold ac3, ac3_fuel. apply ac3_loop_returns. lia. Qed.

Lemma try_values_returns recurse d var vals assignment :
  restores recurse ->
  var ∉ dict_keys assignment ->
  (forall val, returns (recurse (dict_set assignment var val))) ->
  returns (try_values cw recurse d var vals assignment).
Proof.
  intros Hrest Hvar Hrec. induction vals as [|val vals IH]; cbn [try_values]; [done|].
  apply returns_bind; [apply returns_consistent|]. intros c _. destruct c.
  - apply returns_bind; [apply Hrec|]. intros [[r|] a2] Hout; [done|].
    apply Hrest in Hout as ->. by rewrite dict_set_del_fresh.
  - by rewrite dict_set_del_fresh.
Qed.

Lemma backtrack_returns fuel d assignment :
  unassigned_count d assignment < fuel ->
  returns (backtrack cw fuel d assignment).
Proof.
  revert assignment. induction fuel as [|fuel IH]; intros assignment Hfuel; [lia|].
  cbn [backtrack]. destruct (assignment_complete d assignment) eqn:Hc; [done|].
  destruct (select_unassigned_variable_spec cw d assignment)
    as (var & s & Hsel & Hun & Hs & _); [by apply assignment_complete_false|].
  rewrite Hsel. cbn [mbind result_bind].
  apply returns_bind; [apply returns_order_domain_values|]. intros values _.
  apply try_values_returns; [apply backtrack_restores | done |].
  intros val. apply IH.
  pose proof (unassigned_count_set d assignment var val) as Hlt.
  assert (var ∈ dict_keys d) by (apply dict_get_is_Some; eauto).
  specialize (Hlt ltac:(done) Hun). lia.
Qed.

(** X2. [solve] terminates: it is not cut by the fuel of its loops. With
    the fuel that the model gives them, AC-3 and the search run to their
    end. *)
Theorem solve_returns : returns (solve cw).
Proof.
  unfold solve, solve_run.
  pose proof (returns_enforce_node_consistency (init_domains cw)) as Henf.
  destruct (enforce_node_consistency (init_domains cw)) as [d1| |]; [|done..].
  pose proof (ac3_returns d1 None) as Hac3.
  destruct (ac3 cw d1 None) as [[b d2]| |]; [|done..].
  cbn [outcome]. apply returns_bind; [|done].
  apply backtrack_returns. unfold backtrack_fuel, unassigned_count.
  pose proof (length_filter (fun v => v ∉ dict_keys ([] : Assignment)) (dict_keys d2)).
  unfold dict_keys in *. rewrite length_fmap in *. lia.
Qed.
End Termination.

(** ** [solve] *)

(** [solve] searches from the propagated store, whatever AC-3 reported. *)
Lemma solve_run_propagated (cw : Crossword) (b : bool) (d : Domains) :
  propagated cw = Ok (b, d) ->
  solve_run cw =
  mkRun [call_enforce_node_consistency; call_ac3; call_backtrack]
        (r ← backtrack cw (backtrack_fuel d) d []; Ok r.1).
Proof.
  unfold propagated, solve_run. intros Hrun. inv_bind Hrun as d1 Hd1.
  by rewrite Hd1, Hrun.
Qed.

Lemma solve_run_outcome (cw : Crossword) (o : option Assignment) :
  solve cw = Ok o ->
  exists b d a, propagated cw = Ok (b, d) /\
    backtrack cw (backtrack_fuel d) d [] = Ok (o, a).
Proof.
  unfold solve, solve_run, propagated.
  destruct (enforce_node_consistency (init_domains cw)) as [d1| |]; [|done..].
  cbn [mbind result_bind].
  destruct (ac3 cw d1 None) as [[b d2]| |]; [|done..].
  cbn [outcome]. intros Hrun. inv_bind Hrun as out Hout. injection Hrun as <-.
  exists b, d2, out.2. by destruct out.
Qed.

(** C5. An assignment that [solve] returns is complete, every assigned word
    has the length of its variable, the assigned words are pairwise
    distinct, and every variable agrees with each of its neighbors at
    their overlap indices. *)
Theorem solve_sound (cw : Crossword) (r : Assignment) :
  solve cw = Ok (Some r) ->
  (forall v, v ∈ variables cw -> is_Some (dict_get r v)) /\
  (forall v w, (v, w) ∈ r -> var_length v = len w) /\
  NoDup (dict_values r) /\
  (forall x y wx wy i j,
     x ∈ variables cw -> y ∈ neighbors cw x ->
     dict_get r x = Some wx -> dict_get r y = Some wy ->
     overlaps cw x y = Some (i, j) ->
     agree i j wx wy).
Proof.
  intros (b & d & a & Hprop & Hrun)%solve_run_outcome.
  assert (forall v, v ∈ dict_keys d <-> v ∈ variables cw) as Hkeys
    by (intros v; by eapply propagated_keys).
  apply backtrack_sound in Hrun as (_ & Hcompl & Hcons & Hfrom);
    [|intros v Hv; by apply Hkeys].
  specialize (Hfrom (Forall_nil_2 _)).
  assert (forall v, v ∈ variables cw -> is_Some (dict_get r v)) as Hall.
  { intros v Hv. apply dict_get_is_Some.
    eapply assignment_complete_true; [done | by apply Hkeys]. }
  split; [done|].
  destruct Hcons as [->|Hcons].
  { split_and!.
    - intros v w Hin. by apply elem_of_nil in Hin.
    - constructor.
    - intros x y wx wy i j Hx. by destruct (Hall x Hx). }
  apply consistent_true in Hcons as (Hlens & Hnd & Hnb).
  split_and!; [|done|].
  - intros v w Hin. rewrite Forall_forall in Hlens. by apply (Hlens (v, w)).
  - intros x y wx wy i j Hx Hy Hwx Hwy Hov.
    rewrite Forall_forall in Hnb.
    specialize (Hnb (x, wx) (dict_get_Some_elem _ _ _ Hwx)). cbn in Hnb.
    destruct (check_neighbors_true cw d r x _ Hnb y Hy)
      as (i' & j' & dy & Hov' & Hdy & Hvals).
    assert (i' = i /\ j' = j) as [-> ->] by (split; congruence).
    unfold from_domains in Hfrom. rewrite Forall_forall in Hfrom.
    specialize (Hfrom (y, wy) (dict_get_Some_elem _ _ _ Hwy)). cbn in Hfrom.
    rewrite Hdy in Hfrom.
    destruct (check_n_vals_true r x i j dy Hvals wy Hfrom) as (w & Hw & Hagree).
    congruence.
Qed.

(** C1, amended. When AC-3 reports failure, [solve] still calls
    [backtrack], on the empty assignment; the variable that the search
    selects has an empty domain, so that no value is tried, and [solve]
    returns [None]. *)
Theorem solve_after_ac3_failure (cw : Crossword) (d : Domains) :
  propagated cw = Ok (false, d) ->
  calls (solve_run cw) = [call_enforce_node_consistency; call_ac3; call_backtrack] /\
  (exists var, select_unassigned_variable cw d [] = Ok var /\ dict_get d var = Some []) /\
  solve cw = Ok None.
Proof.
  intros Hprop. unfold solve. rewrite (solve_run_propagated cw false d Hprop).
  split; [done|]. cbn [outcome].
  assert (exists X, dict_get d X = Some []) as [X HX].
  { unfold propagated in Hprop. inv_bind Hprop as d1 Hd1. unfold ac3 in Hprop.
    apply ac3_loop_false_emptied in Hprop as (X & dx & _ & _ & HX). eauto. }
  assert (assignment_complete d [] = false) as Hc.
  { destruct (assignment_complete d []) eqn:Hc; [|done].
    eapply (assignment_complete_true _ _ X) in Hc.
    - by apply elem_of_nil in Hc.
    - apply dict_get_is_Some. eauto. }
  destruct (select_unassigned_variable_spec cw d [])
    as (var & s & Hsel & _ & Hs & Hmin); [by apply assignment_complete_false|].
  assert (s = []) as ->.
  { apply nil_length_inv. specialize (Hmin X [] (not_elem_of_nil _) HX).
    simpl in Hmin. lia. }
  split; [by exists var|].
  unfold backtrack_fuel. cbn [backtrack]. rewrite Hc, Hsel. cbn [mbind result_bind].
  unfold order_domain_values, dict_lookup. rewrite Hs. reflexivity.
Qed.

(** ** The solver on the two-slot puzzle *)

(** C4. With the vocabulary [{"BB", "AB"}], iterated in this order, the
    search starts from the domains [{"BB", "AB"}] for the across slot and
    [{"BB"}] for the down slot. There [order_domain_values] gives "BB" the
    score 1 and "AB" the score 0, the scores of the specification, and
    returns them in the order of the domain, "BB" first: the scores of the
    returned sequence are not ascending. The sorted sequence, which the
    code computes and drops, starts with "AB". *)
Theorem order_domain_values_not_sorted :
  let cw := corner ["BB"; "AB"] in
  let d := [(slot_a, ["BB"; "AB"]); (slot_d, ["BB"])] in
  propagated cw = Ok (true, d) /\
  order_domain_values cw d slot_a [] = Ok [("BB", 1); ("AB", 0)] /\
  score cw d slot_a "BB" = 1 /\
  score cw d slot_a "AB" = 0 /\
  ascending [("BB", 1); ("AB", 0)] = false /\
  sorted [("BB", 1); ("AB", 0)] = ["AB"; "BB"].
Proof. vm_compute. done. Qed.

(** C2. With the vocabulary [{"AB", "BA"}] both domains are the whole
    vocabulary when the search starts. The assignment of "AB" to the across
    slot alone breaks no constraint among assigned variables, yet
    [consistent] rejects it: it compares the letter 'B' with every word of
    the domain of the unassigned down slot, and "AB" there starts with
    'A'. *)
Theorem consistent_consults_domains :
  let cw := corner ["AB"; "BA"] in
  let d := [(slot_a, ["AB"; "BA"]); (slot_d, ["AB"; "BA"])] in
  propagated cw = Ok (true, d) /\
  consistent cw d [(slot_a, "AB")] = Ok false /\
  bool_decide (consistent_by_spec cw [(slot_a, "AB")]) = true.
Proof. vm_compute. done. Qed.

(** C3. With the vocabulary [{"AB", "BA"}] the domains after propagation
    hold the complete assignment of "AB" across and "BA" down, which
    satisfies every constraint; [solve] returns [None]. *)
Theorem solve_misses_a_solution :
  let cw := corner ["AB"; "BA"] in
  let d := [(slot_a, ["AB"; "BA"]); (slot_d, ["AB"; "BA"])] in
  let solution := [(slot_a, "AB"); (slot_d, "BA")] in
  propagated cw = Ok (true, d) /\
  assignment_complete d solution = true /\
  bool_decide (from_domains d solution) = true /\
  bool_decide (consistent_by_spec cw solution) = true /\
  solve cw = Ok None.
Proof. vm_compute. done. Qed.

(** C7. With the vocabulary [{"ABC"}] node consistency leaves both domains
    empty. [ac3] revises nothing and returns [True], with both domains
    empty. *)
Theorem ac3_true_with_empty_domains :
  let cw := corner ["ABC"] in
  enforce_node_consistency (init_domains cw) = Ok [(slot_a, []); (slot_d, [])] /\
  ac3 cw [(slot_a, []); (slot_d, [])] None = Ok (true, [(slot_a, []); (slot_d, [])]).
Proof. vm_compute. done. Qed.

(** C1, counterexample. With the vocabulary [{"AB"}] AC-3 empties the
    domain of the across slot and reports failure; [solve] goes on to call
    [backtrack]. *)
Lemma solve_searches_after_ac3_failure :
  let cw := corner ["AB"] in
  propagated cw = Ok (false, [(slot_a, []); (slot_d, ["AB"])]) /\
  calls (solve_run cw) = [call_enforce_node_consistency; call_ac3; call_backtrack].
Proof. vm_compute. done. Qed.

(** ** The theorems on the two-slot puzzle *)

(** A decidable proposition, by evaluation. *)
Ltac by_compute := apply (bool_decide_unpack _); vm_compute; exact I.

Lemma order_domain_values_exact_witness :
  exists values,
    order_domain_values (corner ["BB"; "AB"])
      [(slot_a, ["BB"; "AB"]); (slot_d, ["BB"])] slot_a [] = Ok values /\
    NoDup (dict_keys values) /\
    (forall w, w ∈ dict_keys values <-> w ∈ ["BB"; "AB"]) /\
    (NoDup ["BB"; "AB"] -> dict_keys values = ["BB"; "AB"]).
Proof.
  apply (order_domain_values_exact (corner ["BB"; "AB"])
           [(slot_a, ["BB"; "AB"]); (slot_d, ["BB"])] slot_a [] ["BB"; "AB"]).
  - reflexivity.
  - by_compute.
Defined.

Lemma solve_sound_witness :
  let cw := corner ["AB"; "BC"] in
  let r := [(slot_a, "AB"); (slot_d, "BC")] in
  solve cw = Ok (Some r) /\
  (forall v, v ∈ variables cw -> is_Some (dict_get r v)) /\
  (forall v w, (v, w) ∈ r -> var_length v = len w) /\
  NoDup (dict_values r) /\
  (forall x y wx wy i j,
     x ∈ variables cw -> y ∈ neighbors cw x ->
     dict_get r x = Some wx -> dict_get r y = Some wy ->
     overlaps cw x y = Some (i, j) ->
     agree i j wx wy).
Proof.
  split; [vm_compute; reflexivity|].
  apply (solve_sound (corner ["AB"; "BC"]) [(slot_a, "AB"); (slot_d, "BC")]).
  vm_compute. reflexivity.
Defined.

Lemma solve_after_ac3_failure_witness :
  let cw := corner ["AB"] in
  let d := [(slot_a, []); (slot_d, ["AB"])] in
  propagated cw = Ok (false, d) /\
  calls (solve_run cw) = [call_enforce_node_consistency; call_ac3; call_backtrack] /\
  (exists var, select_unassigned_variable cw d [] = Ok var /\ dict_get d var = Some []) /\
  solve cw = Ok None.
Proof.
  split; [vm_compute; reflexivity|].
  apply (solve_after_ac3_failure (corner ["AB"]) [(slot_a, []); (slot_d, ["AB"])]).
  vm_compute. reflexivity.
Defined.

Lemma backtrack_None_restores_witness :
  let cw := corner ["AB"; "BA"] in
  let d := [(slot_a, ["AB"; "BA"]); (slot_d, ["AB"; "BA"])] in
  exists assignment',
    backtrack cw 2 d [(slot_a, "AB")] = Ok (None, assignment') /\
    assignment' = [(slot_a, "AB")].
Proof.
  exists [(slot_a, "AB")]. split; [vm_compute; reflexivity|].
  apply (backtrack_None_restores (corner ["AB"; "BA"]) 2
           [(slot_a, ["AB"; "BA"]); (slot_d, ["AB"; "BA"])]
           [(slot_a, "AB")] [(slot_a, "AB")]).
  vm_compute. reflexivity.
Defined.

Lemma revise_exact_witness :
  let cw := corner ["BB"; "AB"] in
  let d := [(slot_a, ["BB"; "AB"]); (slot_d, ["BB"; "AB"])] in
  exists revised d', revise cw d slot_d slot_a = Ok (revised, d') /\
    dict_keys d' = dict_keys d /\
    dict_get d' slot_d = Some (filter (supported 0 1 ["BB"; "AB"]) ["BB"; "AB"]) /\
    (revised = true <-> exists w, w ∈ ["BB"; "AB"] /\ ¬ supported 0 1 ["BB"; "AB"] w) /\
    dict_get d' slot_a = Some ["BB"; "AB"] /\
    forall v, v ≠ slot_d -> dict_get d' v = dict_get d v.
Proof.
  apply (revise_exact (corner ["BB"; "AB"])
           [(slot_a, ["BB"; "AB"]); (slot_d, ["BB"; "AB"])]
           slot_d slot_a ["BB"; "AB"] ["BB"; "AB"]).
  - by_compute.
  - reflexivity.
  - reflexivity.
  - intros i j Hov. vm_compute in Hov. injection Hov as <- <-. split; by_compute.
Defined.


Lemma corner_symmetric (vocabulary : list Word) :
  symmetric_overlaps (corner vocabulary).
Proof.
  intros x y i j. cbn. unfold corner_overlaps.
  destruct (decide (x = slot_a /\ y = slot_d)) as [[-> ->]|Had].
  - intros [= <- <-]. reflexivity.
  - destruct (decide (x = slot_d /\ y = slot_a)) as [[-> ->]|Hda]; [|done].
    intros [= <- <-]. reflexivity.
Qed.

Lemma ac3_outcome_witness :
  let cw := corner ["BB"; "AB"] in
  let d := [(slot_a, ["BB"; "AB"]); (slot_d, ["BB"; "AB"])] in
  let d' := [(slot_a, ["BB"; "AB"]); (slot_d, ["BB"])] in
  ac3 cw d None = Ok (true, d') /\
  (true = false <->
     exists X dx, dict_get d X = Some dx /\ dx ≠ [] /\ dict_get d' X = Some []) /\
  (true = true ->
     (forall x y, x ≠ y -> arc_consistent cw d' x y) /\
     (forall x dx, dict_get d x = Some dx -> dx ≠ [] ->
        exists dx', dict_get d' x = Some dx' /\ dx' ≠ [])).
Proof.
  split; [vm_compute; reflexivity|].
  apply (ac3_outcome (corner ["BB"; "AB"])
           [(slot_a, ["BB"; "AB"]); (slot_d, ["BB"; "AB"])] true
           [(slot_a, ["BB"; "AB"]); (slot_d, ["BB"])]).
  - apply corner_symmetric.
  - by_compute.
  - vm_compute. reflexivity.
Defined.

Lemma order_domain_values_scores_witness :
  let cw := corner ["BB"; "AB"] in
  let d := [(slot_a, ["BB"; "AB"]); (slot_d, ["BB"])] in
  let values := [("BB", 1); ("AB", 0)] in
  order_domain_values cw d slot_a [] = Ok values /\
  forall w, w ∈ ["BB"; "AB"] -> dict_get values w = Some (score cw d slot_a w).
Proof.
  split; [vm_compute; reflexivity|].
  apply (order_domain_values_scores (corner ["BB"; "AB"])
           [(slot_a, ["BB"; "AB"]); (slot_d, ["BB"])] slot_a []
           ["BB"; "AB"] [("BB", 1); ("AB", 0)]).
  - reflexivity.
  - by_compute.
  - intros n dn Hn.
    change (neighbors (corner ["BB"; "AB"]) slot_a) with [slot_d] in Hn.
    apply list_elem_of_singleton in Hn as ->. intros [= <-]. by_compute.
  - vm_compute. reflexivity.
Defined.

(** * Further properties *)

(** ** Dictionaries filled by a loop *)

Section DictFilled.
Context {K V : Type} `{EqDecision K}.
Implicit Types (d : dict K V) (k : K).

Lemma dict_get_filled (f : K -> V) (l : list K) d k :
  dict_get (foldl (fun dc key => dict_set dc key (f key)) d l) k =
  if decide (k ∈ l) then Some (f k) else dict_get d k.
Proof.
  revert d. induction l as [|a l IH]; intros d; cbn [foldl].
  - case_decide as Hin; [by apply elem_of_nil in Hin | done].
  - rewrite IH, dict_get_set. destruct (decide (k ∈ l)) as [Hin|Hnin].
    + by rewrite decide_True by (by right).
    + destruct (decide (a = k)) as [->|Hne].
      * by rewrite decide_True by left.
      * rewrite decide_False; [done|]. intros [?|?]%elem_of_cons; congruence.
Qed.

Lemma dict_keys_filled_NoDup (f : K -> V) (l : list K) d :
  NoDup (dict_keys d) ->
  NoDup (dict_keys (foldl (fun dc key => dict_set dc key (f key)) d l)).
Proof.
  revert d. induction l as [|a l IH]; intros d Hnd; cbn [foldl]; [done|].
  apply IH. by apply dict_keys_set_NoDup.
Qed.

Lemma dict_keys_filled_fresh (f : K -> V) (l : list K) d :
  NoDup (dict_keys d ++ l) ->
  dict_keys (foldl (fun dc key => dict_set dc key (f key)) d l) = dict_keys d ++ l.
Proof.
  revert d. induction l as [|a l IH]; intros d Hnd; cbn [foldl].
  - by rewrite app_nil_r.
  - assert (a ∉ dict_keys d) as Ha.
    { apply NoDup_app in Hnd as (_ & Hdisj & _). intros Hin. apply (Hdisj a Hin). left. }
    rewrite IH; rewrite dict_keys_set, decide_False by done;
      rewrite <- app_assoc; done.
Qed.
End DictFilled.

(** ** [__init__] *)

(** X4. [__init__] gives every variable of the crossword the whole
    vocabulary as its domain, and nothing to anything else; no variable
    occurs twice among the keys, and the keys come in the order of the
    variables when no variable is repeated there. *)
Theorem init_domains_lookup (cw : Crossword) :
  (forall v, dict_get (init_domains cw) v =
             if decide (v ∈ variables cw) then Some (words cw) else None) /\
  NoDup (dict_keys (init_domains cw)) /\
  (NoDup (variables cw) -> dict_keys (init_domains cw) = variables cw).
Proof.
  unfold init_domains. split_and!.
  - intros v. by rewrite (dict_get_filled (fun _ => words cw)).
  - apply (dict_keys_filled_NoDup (fun _ => words cw)). constructor.
  - intros Hnd. by rewrite (dict_keys_filled_fresh (fun _ => words cw)).
Qed.

(** ** The variable selection: both keys of the order *)

Lemma foldl_max_ge (n : nat) (l : list nat) :
  forall x, x ∈ n :: l -> x <= foldl Nat.max n l.
Proof.
  revert n. induction l as [|a l IH]; intros n x Hx; cbn [foldl].
  - apply list_elem_of_singleton in Hx as ->. done.
  - assert (Nat.max n a <= foldl Nat.max (Nat.max n a) l) by (apply IH; left).
    apply elem_of_cons in Hx as [->|Hx]; [lia|].
    apply elem_of_cons in Hx as [->|Hx]; [lia|].
    apply IH. by right.
Qed.

Lemma py_max_ge (l : list nat) (m : nat) :
  py_max l = Ok m -> forall x, x ∈ l -> x <= m.
Proof.
  destruct l as [|n l]; [done|]. intros [= <-]. apply foldl_max_ge.
Qed.

Section SelectOrder.
Context (cw : Crossword).

Lemma break_tie_spec keys :
  keys ≠ [] ->
  exists var, break_tie cw keys = Ok var /\ var ∈ keys /\
    forall v, v ∈ keys -> length (neighbors cw v) <= length (neighbors cw var).
Proof.
  intros Hkeys. unfold break_tie. case_decide as Hlen.
  - destruct keys as [|k [|k' keys]]; [done| |done].
    exists k. split_and!; [done | left |].
    by intros v ->%list_elem_of_singleton.
  - cbn zeta.
    set (degree_check :=
      foldl (fun dc key => dict_set dc key (length (neighbors cw key))) [] keys).
    assert (forall k, dict_get degree_check k =
              if decide (k ∈ keys) then Some (length (neighbors cw k)) else None) as Hget.
    { intros k. unfold degree_check.
      by rewrite (dict_get_filled (fun key => length (neighbors cw key))). }
    assert (NoDup (dict_keys degree_check)) as Hnd.
    { apply (dict_keys_filled_NoDup (fun key => length (neighbors cw key))). constructor. }
    assert (forall k n, (k, n) ∈ degree_check <->
              k ∈ keys /\ n = length (neighbors cw k)) as Hdc.
    { intros k n. split.
      - intros Hin. apply (dict_get_elem_NoDup _ _ _ Hnd) in Hin.
        rewrite Hget in Hin. case_decide; [|done]. by injection Hin as <-.
      - intros [Hin ->]. apply dict_get_Some_elem. rewrite Hget. by rewrite decide_True. }
    destruct (py_max_spec (dict_values degree_check)) as (max_val & Hmax & Hmax_in).
    { destruct keys as [|k keys'] eqn:Ek; [done|].
      intros Hnil. assert (length (neighbors cw k) ∈ dict_values degree_check) as Hn.
      { apply elem_of_dict_values. exists k. apply Hdc. split; [left | done]. }
      rewrite Hnil in Hn. by apply elem_of_nil in Hn. }
    rewrite Hmax. cbn [mbind result_bind].
    apply elem_of_dict_values in Hmax_in as [k Hk].
    destruct (first_spec (filter (fun kv => kv.2 = max_val) degree_check).*1)
      as (var & Hfirst & Hvar).
    { apply keys_with_value_spec in Hk. intros Hnil. rewrite Hnil in Hk.
      by apply elem_of_nil in Hk. }
    apply keys_with_value_spec, Hdc in Hvar as [Hvar ->].
    exists var. split_and!; [done..|].
    intros v Hv. apply (py_max_ge _ _ Hmax).
    apply elem_of_dict_values. exists v. by apply Hdc.
Qed.

(** X5. When some variable of the store is unassigned,
    [select_unassigned_variable] returns an unassigned variable of the
    store; no unassigned variable has fewer candidate words, and none with
    as few candidate words has more neighbors. *)
Theorem select_unassigned_variable_order d assignment :
  (exists v, v ∈ dict_keys d /\ v ∉ dict_keys assignment) ->
  exists var s, select_unassigned_variable cw d assignment = Ok var /\
    (var ∉ dict_keys assignment) /\
    dict_get d var = Some s /\
    forall v s', v ∉ dict_keys assignment -> dict_get d v = Some s' ->
      length s <= length s' /\
      (length s' = length s ->
       length (neighbors cw v) <= length (neighbors cw var)).
Proof.
  intros (v0 & Hv0 & Hv0a). unfold select_unassigned_variable.
  set (unassigned := filter (fun var => var ∉ dict_keys assignment) (dict_keys d)).
  destruct (count_remaining_spec d unassigned []) as (rv & Hrun & Hnd & Hget).
  { intros v [_ Hv]%list_elem_of_filter. done. }
  { constructor. }
  rewrite Hrun. cbn [mbind result_bind].
  assert (forall k n, (k, n) ∈ rv <->
            k ∈ unassigned /\ length <$> dict_get d k = Some n) as Hrv.
  { intros k n. split.
    - intros Hin. apply (dict_get_elem_NoDup _ _ _ Hnd) in Hin.
      rewrite Hget in Hin. case_decide; [done | discriminate].
    - intros [Hin Hlen]. apply dict_get_Some_elem. rewrite Hget.
      by rewrite decide_True. }
  assert (v0 ∈ unassigned) as Hv0u by (by apply list_elem_of_filter).
  apply dict_get_is_Some in Hv0 as [s0 Hs0].
  destruct (py_min_spec (dict_values rv)) as (min_val & Hmin & Hmin_in & Hmin_le).
  { intros Hnil. assert (length s0 ∈ dict_values rv) as Hin.
    - apply elem_of_dict_values. exists v0. apply Hrv. by rewrite Hs0.
    - rewrite Hnil in Hin. by apply elem_of_nil in Hin. }
  rewrite Hmin. cbn [mbind result_bind].
  destruct (break_tie_spec (filter (fun kv => kv.2 = min_val) rv).*1)
    as (var & Hsel & Hvar & Hdeg).
  { apply elem_of_dict_values in Hmin_in as [k Hk].
    apply keys_with_value_spec in Hk.
    intros Hnil. rewrite Hnil in Hk. by apply elem_of_nil in Hk. }
  apply keys_with_value_spec, Hrv in Hvar as [Hvar Hlen].
  apply list_elem_of_filter in Hvar as [Hvar_a Hvar_d].
  destruct (dict_get d var) as [s|] eqn:Hs; [|discriminate].
  injection Hlen as <-.
  exists var, s. split_and!; [exact Hsel | done..|].
  intros v s' Hv Hs'.
  assert ((v, length s') ∈ rv) as Hin.
  { apply Hrv. split; [|by rewrite Hs'].
    apply list_elem_of_filter. split; [done|]. apply dict_get_is_Some. eauto. }
  split.
  - apply Hmin_le. apply elem_of_dict_values. eauto.
  - intros Heq. apply Hdeg. apply keys_with_value_spec. by rewrite <- Heq.
Qed.

(** X6. On a complete assignment [select_unassigned_variable] raises
    [ValueError]: [min] is taken of an empty sequence. *)
Theorem select_unassigned_variable_complete d assignment :
  (forall v, v ∈ dict_keys d -> v ∈ dict_keys assignment) ->
  select_unassigned_variable cw d assignment = Raise ValueError.
Proof.
  intros Hall. unfold select_unassigned_variable.
  assert (filter (fun var => var ∉ dict_keys assignment) (dict_keys d) = []) as ->.
  { induction (dict_keys d) as [|k ks IH]; [done|].
    rewrite filter_cons, decide_False.
    - apply IH. intros v Hv. apply Hall. by right.
    - intros Hk. apply Hk, Hall. left. }
  reflexivity.
Qed.
End SelectOrder.

(** ** Node consistency, applied twice *)

Lemma filter_Forall_id {A} (P : A -> Prop) `{forall x, Decision (P x)} (l : list A) :
  Forall P l -> filter P l = l.
Proof.
  induction 1 as [|a l Ha Hl IH]; [done|].
  rewrite filter_cons, decide_True by done. by rewrite IH.
Qed.

Lemma dict_replace_same {K V} `{EqDecision K} (d : dict K V) k v :
  dict_get d k = Some v -> dict_replace d k v = d.
Proof.
  induction d as [|[k0 v0] d IH]; cbn [dict_get dict_replace]; [done|].
  case_decide; [by intros [= ->] | intros Hget; by rewrite IH].
Qed.

Lemma enforce_keys_fixed (ks : list Var) (d : Domains) :
  node_consistent d -> ks ⊆ dict_keys d -> enforce_keys ks d = Ok d.
Proof.
  intros Hnc. induction ks as [|key ks IH]; intros Hsub; cbn [enforce_keys]; [done|].
  assert (key ∈ dict_keys d) as Hkey by (apply Hsub; left).
  apply dict_get_is_Some in Hkey as [s Hs].
  unfold dict_lookup. rewrite Hs. cbn [mbind result_bind].
  pose proof (enforce_values_filter key s [] (Forall_nil_2 _)) as Hvals.
  cbn [app] in Hvals. rewrite Hvals. cbn [mbind result_bind].
  rewrite filter_Forall_id by (by eapply Hnc).
  rewrite dict_replace_same by done.
  apply IH. intros v Hv. apply Hsub. by right.
Qed.

Lemma enforce_node_consistent (d d' : Domains) :
  enforce_node_consistency d = Ok d' -> node_consistent d'.
Proof.
  intros Hrun v s Hs.
  destruct (enforce_keys_spec (dict_keys d) d) as (d'' & Hrun' & _ & Hget); [done|].
  unfold enforce_node_consistency in Hrun. assert (d'' = d') as -> by congruence.
  rewrite Hget in Hs. case_decide as Hin.
  - destruct (dict_get d v) as [s0|]; [|done]. injection Hs as <-.
    apply Forall_forall. by intros w [Hw _]%list_elem_of_filter.
  - apply dict_get_None in Hin. congruence.
Qed.

(** X7. Node consistency is idempotent: a call of
    [enforce_node_consistency] on the store that a first call has left
    returns, and changes nothing. *)
Theorem enforce_node_consistency_idempotent (d d' : Domains) :
  enforce_node_consistency d = Ok d' ->
  enforce_node_consistency d' = Ok d'.
Proof.
  intros Hrun. unfold enforce_node_consistency.
  apply enforce_keys_fixed; [by eapply enforce_node_consistent | done].
Qed.

(** ** AC-3 and the solutions of the puzzle *)

Section Ac3Solutions.
Context (cw : Crossword).




Lemma ac3_loop_sublist fuel d queue b d' :
  ac3_loop cw fuel d queue = Ok (b, d') ->
  forall x dx, dict_get d x = Some dx ->
    exists dx', dict_get d' x = Some dx' /\ dx' `sublist_of` dx.
Proof.
  revert d queue. induction fuel as [|fuel IH]; intros d queue; cbn [ac3_loop]; [done|].
  destruct queue as [|[X Y] queue].
  - intros [= <- <-] x dx Hdx. by exists dx.
  - intros Hrun. inv_bind Hrun as rev Hrev. destruct rev as [revised d1].
    assert (forall x dx, dict_get d x = Some dx ->
              exists dx1, dict_get d1 x = Some dx1 /\ dx1 `sublist_of` dx) as Hstep.
    { apply revise_Ok in Hrev. destruct (overlaps cw X Y) as [[i j]|].
      - destruct Hrev as (dX & dY & HdX & HdY & -> & _). intros x dx Hdx.
        rewrite dict_get_replace. case_decide as HxX; [|by exists dx].
        subst x. rewrite Hdx. cbn. eexists. split; [done|].
        assert (dx = dX) as -> by congruence. apply sublist_filter.
      - destruct Hrev as [_ ->]. intros x dx Hdx. by exists dx. }
    assert (forall d2, ac3_loop cw fuel d1 d2 = Ok (b, d') ->
              forall x dx, dict_get d x = Some dx ->
                exists dx', dict_get d' x = Some dx' /\ dx' `sublist_of` dx) as Hrec.
    { intros q Hq x dx Hdx. destruct (Hstep x dx Hdx) as (dx1 & Hdx1 & Hsub1).
      destruct (IH _ _ Hq x dx1 Hdx1) as (dx' & Hdx' & Hsub').
      exists dx'. split; [done | by etrans]. }
    destruct revised; [|by eapply Hrec].
    inv_bind Hrun as s Hs. case_decide; [|by eapply Hrec].
    injection Hrun as <- <-. done.
Qed.

End Ac3Solutions.

(** ** AC-3 on a store that is already arc consistent *)

Section Ac3Fixed.
Context (cw : Crossword).

(** On words that reach the overlap indices a revision raises nothing. *)
Lemma revise_reach d x y dx dy :
  words_reach cw d ->
  dict_get d x = Some dx -> dict_get d y = Some dy ->
  revise cw d x y =
  match overlaps cw x y with
  | None => Ok (false, d)
  | Some (i, j) =>
      Ok (bool_decide (Exists (fun w => ¬ supported i j dy w) dx),
          dict_replace d x (filter (supported i j dy) dx))
  end.
Proof.
  intros Hreach Hdx Hdy. unfold revise.
  destruct (overlaps cw x y) as [[i j]|] eqn:Hov; [|done].
  destruct (Hreach x y i j Hov) as [Hi Hj].
  unfold dict_lookup. rewrite Hdx, Hdy. cbn [mbind result_bind].
  rewrite revise_scan_spec by eauto. cbn [mbind result_bind app orb].
  pose proof (remove_words_filter (supported i j dy) dx [] (Forall_nil_2 _)) as Hrm.
  cbn [app] in Hrm. by rewrite Hrm.
Qed.

Lemma revise_fixed d x y :
  words_reach cw d ->
  x ∈ dict_keys d -> y ∈ dict_keys d ->
  arc_consistent cw d x y ->
  revise cw d x y = Ok (false, d).
Proof.
  intros Hreach [dx Hdx]%dict_get_is_Some [dy Hdy]%dict_get_is_Some Harc.
  rewrite (revise_reach d x y dx dy) by done.
  destruct (overlaps cw x y) as [[i j]|] eqn:Hov; [|done].
  specialize (Harc i j dx dy Hov Hdx Hdy).
  rewrite filter_Forall_id by done. rewrite dict_replace_same by done.
  rewrite bool_decide_eq_false_2; [done|].
  intros (w & Hw & Hns)%Exists_exists. rewrite Forall_forall in Harc. by apply Hns, Harc.
Qed.

Lemma ac3_loop_fixed fuel d queue :
  words_reach cw d ->
  Forall (fun arc => arc.1 ∈ dict_keys d /\ arc.2 ∈ dict_keys d /\
                     arc_consistent cw d arc.1 arc.2) queue ->
  length queue < fuel ->
  ac3_loop cw fuel d queue = Ok (true, d).
Proof.
  intros Hreach. revert queue.
  induction fuel as [|fuel IH]; intros queue Hq Hfuel; [lia|].
  cbn [ac3_loop]. destruct queue as [|[X Y] queue]; [done|].
  apply Forall_cons in Hq as [(HX & HY & Harc) Hq]. cbn in HX, HY, Harc.
  rewrite revise_fixed by done. cbn [mbind result_bind].
  apply IH; [done|]. cbn [length] in Hfuel. lia.
Qed.

(** X10. On a store whose words reach the overlap indices and where every
    arc between distinct variables is consistent, [ac3()] returns [True]
    and changes nothing. *)
Theorem ac3_fixed_point d :
  words_reach cw d ->
  (forall x y, x ≠ y -> arc_consistent cw d x y) ->
  ac3 cw d None = Ok (true, d).
Proof.
  intros Hreach Harc. unfold ac3, ac3_fuel. apply ac3_loop_fixed; [done| |lia].
  apply Forall_forall. intros [x y] (Hx & Hy & Hxy)%elem_of_all_arcs.
  cbn. split_and!; [done..|]. by apply Harc.
Qed.

Lemma words_reach_shrunk d d' :
  words_reach cw d ->
  (forall x dx', dict_get d' x = Some dx' ->
     exists dx, dict_get d x = Some dx /\ dx' ⊆ dx) ->
  words_reach cw d'.
Proof.
  intros Hreach Hsub x y i j Hov. destruct (Hreach x y i j Hov) as [Hi Hj].
  split; intros s' Hs'; destruct (Hsub _ _ Hs') as (s & Hs & Hincl);
    apply Forall_forall; intros w Hw.
  - specialize (Hi s Hs). rewrite Forall_forall in Hi. by apply Hi, Hincl.
  - specialize (Hj s Hs). rewrite Forall_forall in Hj. by apply Hj, Hincl.
Qed.

(** What [ac3] leaves in a domain was in it before. *)
Lemma ac3_loop_from_before fuel d queue b d' :
  ac3_loop cw fuel d queue = Ok (b, d') ->
  forall x dx', dict_get d' x = Some dx' ->
    exists dx, dict_get d x = Some dx /\ dx' ⊆ dx.
Proof.
  intros Hrun x dx' Hdx'.
  assert (x ∈ dict_keys d) as Hx.
  { apply ac3_loop_keys in Hrun as <-. apply dict_get_is_Some. eauto. }
  apply dict_get_is_Some in Hx as [dx Hdx]. exists dx. split; [done|].
  destruct (ac3_loop_sublist cw _ _ _ _ _ Hrun x dx Hdx) as (dx'' & Hdx'' & Hsub).
  assert (dx'' = dx') as -> by congruence. by apply sublist_subseteq.
Qed.

(** X11. AC-3 is idempotent when it succeeds: on a puzzle with a symmetric
    table of overlaps and a store whose words reach the overlap indices, a
    call of [ac3()] after one that returned [True] returns [True] again and
    changes nothing. *)
Theorem ac3_idempotent d d' :
  symmetric_overlaps cw ->
  dict_keys d ⊆ variables cw ->
  words_reach cw d ->
  ac3 cw d None = Ok (true, d') ->
  ac3 cw d' None = Ok (true, d').
Proof.
  intros Hsym Hvars Hreach Hrun. unfold ac3 in Hrun.
  assert (words_reach cw d') as Hreach'.
  { eapply words_reach_shrunk; [done|]. by eapply ac3_loop_from_before. }
  unfold ac3, ac3_fuel. apply ac3_loop_fixed; [done| |lia].
  apply Forall_forall. intros [x y] (Hx & Hy & Hxy)%elem_of_all_arcs.
  cbn. split_and!; [done..|].
  eapply (ac3_loop_consistent cw); [done..| | |exact Hrun|done].
  - apply Forall_forall. intros [x0 y0] Hin.
    by apply elem_of_all_arcs in Hin as (_ & _ & ?).
  - intros x0 y0 Hx0 Hy0 Hxy0. left. by apply elem_of_all_arcs.
Qed.
End Ac3Fixed.

(** ** What [consistent] accepts *)

Section ConsistentTrue.
Context (cw : Crossword).

Lemma check_n_vals_Forall assignment key i j dn w :
  dict_get assignment key = Some w ->
  Forall (agree i j w) dn ->
  check_n_vals assignment key i j dn = Ok true.
Proof.
  intros Hw. induction 1 as [|n_val dn Hagree Hdn IH]; cbn [check_n_vals]; [done|].
  unfold dict_lookup. rewrite Hw. cbn [mbind result_bind].
  unfold agree in Hagree. unfold str_index.
  destruct (String.get i w) as [a|]; [|done].
  destruct (String.get j n_val) as [b|]; [|done]. subst b.
  cbn [mbind result_bind]. by rewrite decide_False by (by intros ?).
Qed.

Lemma check_neighbors_unanimous d assignment key ns :
  check_neighbors cw d assignment key ns = Ok true <->
  forall n, n ∈ ns ->
    exists i j dn, overlaps cw key n = Some (i, j) /\
      dict_get d n = Some dn /\
      (dn = [] \/ exists w, dict_get assignment key = Some w /\ Forall (agree i j w) dn).
Proof.
  split.
  - intros Hrun n Hn.
    destruct (check_neighbors_true cw d assignment key ns Hrun n Hn)
      as (i & j & dn & Hov & Hdn & Hvals).
    exists i, j, dn. split_and!; [done..|].
    destruct dn as [|n_val dn]; [by left | right].
    destruct (check_n_vals_true assignment key i j _ Hvals n_val) as (w & Hw & _); [left|].
    exists w. split; [done|]. apply Forall_forall. intros n_val' Hin.
    destruct (check_n_vals_true assignment key i j _ Hvals n_val' Hin) as (w' & Hw' & Hagree).
    congruence.
  - induction ns as [|n ns IH]; intros Hall; cbn [check_neighbors]; [done|].
    destruct (Hall n) as (i & j & dn & Hov & Hdn & Hvals); [left|].
    rewrite Hov. unfold dict_lookup. rewrite Hdn. cbn [mbind result_bind].
    assert (check_n_vals assignment key i j dn = Ok true) as ->.
    { destruct Hvals as [->|(w & Hw & Hagree)]; [done|]. by eapply check_n_vals_Forall. }
    cbn [mbind result_bind]. apply IH. intros n' Hn'. apply Hall. by right.
Qed.

Lemma consistent_items_accepts d assignment items value_list :
  Forall (fun kv => var_length kv.1 = len kv.2) items ->
  NoDup (value_list ++ items.*2) ->
  Forall (fun kv => unanimous cw d assignment kv.1) items ->
  consistent_items cw d assignment items value_list = Ok true.
Proof.
  revert value_list.
  induction items as [|[key value] items IH]; intros value_list Hlens Hnd Hun;
    cbn [consistent_items]; [done|].
  apply Forall_cons in Hlens as [Hlen Hlens]. apply Forall_cons in Hun as [Hkey Hun].
  cbn [fst snd] in Hlen, Hkey. rewrite decide_False by lia.
  rewrite fmap_cons in Hnd. cbn [fst snd] in Hnd.
  rewrite decide_False.
  - assert (check_neighbors cw d assignment key (neighbors cw key) = Ok true) as ->
      by (by apply (check_neighbors_unanimous d assignment key)).
    cbn [mbind result_bind]. apply IH; [done| |done].
    by rewrite <- app_assoc.
  - intros Hin. apply NoDup_app in Hnd as (_ & Hdisj & _).
    apply (Hdisj value Hin). left.
Qed.

Lemma consistent_unanimous d assignment :
  consistent cw d assignment = Ok true ->
  Forall (fun kv => unanimous cw d assignment kv.1) assignment.
Proof.
  intros (_ & _ & Hnb)%consistent_true.
  apply Forall_forall. intros kv Hkv. rewrite Forall_forall in Hnb.
  unfold unanimous. apply (check_neighbors_unanimous d assignment kv.1). by apply Hnb.
Qed.

(** X12. [consistent] returns [True] exactly when every assigned word has
    the length of its variable, no word is assigned twice, and, for every
    assigned variable and each of its neighbors, all the words of the
    domain of the neighbor agree with the assigned word at the overlap
    indices. The assigned word of the neighbor is not looked at. *)
Theorem consistent_true_iff d assignment :
  consistent cw d assignment = Ok true <->
  Forall (fun kv => var_length kv.1 = len kv.2) assignment /\
  NoDup (dict_values assignment) /\
  Forall (fun kv => unanimous cw d assignment kv.1) assignment.
Proof.
  split.
  - intros Hrun. split_and!; [by apply consistent_true in Hrun as (? & _ & _)
                             |by apply consistent_true in Hrun as (_ & ? & _)
                             |by apply consistent_unanimous].
  - intros (Hlens & Hnd & Hun). by apply consistent_items_accepts.
Qed.
End ConsistentTrue.

(** ** What the search keeps of the assignment *)

Section SearchKeeps.
Context (cw : Crossword).

(** A property that assigning a fresh variable keeps holds of what the
    loop over the values returns. *)
Lemma try_values_keeps P recurse d var vals assignment r assignment' :
  kept_by_assigning d P ->
  restores recurse ->
  (forall a1 r1 a2, P a1 -> recurse a1 = Ok (Some r1, a2) -> P r1) ->
  var ∈ dict_keys d -> var ∉ dict_keys assignment ->
  P assignment ->
  try_values cw recurse d var vals assignment = Ok (Some r, assignment') ->
  P r.
Proof.
  intros Hkept Hrest Hrec Hd Hvar HP.
  induction vals as [|val vals IH]; cbn [try_values]; intros Hrun; [done|].
  inv_bind Hrun as c Hc. destruct c.
  - inv_bind Hrun as out Hout. destruct out as [[r'|] a2].
    + injection Hrun as -> ->. eapply Hrec; [|exact Hout]. by apply Hkept.
    + apply Hrest in Hout as ->. rewrite dict_set_del_fresh in Hrun by done.
      by apply IH.
  - rewrite dict_set_del_fresh in Hrun by done. by apply IH.
Qed.

Lemma backtrack_keeps P fuel d assignment r assignment' :
  kept_by_assigning d P ->
  P assignment ->
  backtrack cw fuel d assignment = Ok (Some r, assignment') ->
  P r.
Proof.
  intros Hkept. revert assignment r assignment'.
  induction fuel as [|fuel IH]; intros assignment r assignment' HP; cbn [backtrack]; [done|].
  destruct (assignment_complete d assignment) eqn:Hc; [by intros [= <- <-]|].
  intros Hrun. inv_bind Hrun as var Hvar. inv_bind Hrun as values Hvalues.
  destruct (select_unassigned_variable_spec cw d assignment)
    as (var' & dv & Hsel & Hun & Hdv & _); [by apply assignment_complete_false|].
  assert (var' = var) as -> by congruence.
  eapply (try_values_keeps P); [done|apply backtrack_restores| | | |exact HP|exact Hrun].
  - intros a1 r1 a2 HP1 Hrun1. by eapply IH.
  - apply dict_get_is_Some. eauto.
  - done.
Qed.

Lemma dict_set_fresh (assignment : Assignment) var val :
  var ∉ dict_keys assignment -> dict_set assignment var val = assignment ++ [(var, val)].
Proof. intros Hvar%dict_get_None. unfold dict_set. by rewrite Hvar. Qed.

(** X13. When [backtrack(assignment)] returns an assignment, it is the
    dictionary it was given, with entries added after those it had: the
    search never changes or removes an entry of the assignment it starts
    from, also when that assignment breaks a constraint. *)
Theorem backtrack_extends fuel d assignment r assignment' :
  backtrack cw fuel d assignment = Ok (Some r, assignment') ->
  assignment' = r /\ exists added, r = assignment ++ added.
Proof.
  intros Hrun. split.
  - revert assignment r assignment' Hrun.
    induction fuel as [|fuel IH]; intros assignment r assignment'; cbn [backtrack]; [done|].
    destruct (assignment_complete d assignment) eqn:Hc; [by intros [= <- <-]|].
    intros Hrun. inv_bind Hrun as var Hvar. inv_bind Hrun as values Hvalues.
    assert (var ∉ dict_keys assignment) as Hfresh by (by eapply selected_unassigned).
    clear Hvalues. induction (dict_keys values) as [|val vals IHvals];
      cbn [try_values] in Hrun; [done|].
    inv_bind Hrun as c Hc'. destruct c.
    + inv_bind Hrun as out Hout. destruct out as [[r'|] a2].
      * injection Hrun as -> ->. by eapply IH.
      * apply backtrack_restores in Hout as ->.
        rewrite dict_set_del_fresh in Hrun by done. by apply IHvals.
    + rewrite dict_set_del_fresh in Hrun by done. by apply IHvals.
  - apply (backtrack_keeps (fun r => exists added, r = assignment ++ added)) in Hrun.
    + done.
    + intros a var val [added ->] _ Hvar. rewrite dict_set_fresh by done.
      exists (added ++ [(var, val)]). by rewrite app_assoc.
    + exists []. by rewrite app_nil_r.
Qed.
End SearchKeeps.

(** ** [solve] on a well-formed puzzle *)

Lemma no_raise_Ok {A} (m : result A) :
  returns m -> no_raise m -> exists a, m = Ok a.
Proof.
  destruct m as [a|e|]; intros Hret Hno; [eauto | by destruct (Hno e) | done].
Qed.

Section WellFormed.
Context (cw : Crossword).

Lemma node_consistent_reach d :
  well_formed cw -> node_consistent d -> words_reach cw d.
Proof.
  intros [_ Hwf] Hnc x y i j Hov. destruct (Hwf x y i j Hov) as [Hi Hj].
  split; intros s Hs; specialize (Hnc _ _ Hs); apply Forall_forall; intros w Hw;
    rewrite Forall_forall in Hnc; specialize (Hnc w Hw); unfold fits in Hnc; lia.
Qed.

Lemma node_consistent_shrunk d d' :
  node_consistent d ->
  (forall x dx', dict_get d' x = Some dx' ->
     exists dx, dict_get d x = Some dx /\ dx' ⊆ dx) ->
  node_consistent d'.
Proof.
  intros Hnc Hsub v s' Hs'. destruct (Hsub _ _ Hs') as (s & Hs & Hincl).
  specialize (Hnc _ _ Hs). rewrite Forall_forall in Hnc.
  apply Forall_forall. intros w Hw. by apply Hnc, Hincl.
Qed.

Lemma ac3_loop_no_raise fuel d queue :
  words_reach cw d ->
  variables cw ⊆ dict_keys d ->
  Forall (fun arc => arc.1 ∈ dict_keys d /\ arc.2 ∈ dict_keys d) queue ->
  no_raise (ac3_loop cw fuel d queue).
Proof.
  revert d queue. induction fuel as [|fuel IH]; intros d queue Hreach Hvars Hq;
    cbn [ac3_loop]; [done|].
  destruct queue as [|[X Y] queue]; [done|].
  apply Forall_cons in Hq as [[HX HY] Hq]. cbn [fst snd] in HX, HY.
  apply dict_get_is_Some in HX as [dX HdX]. apply dict_get_is_Some in HY as [dY HdY].
  rewrite (revise_reach cw d X Y dX dY) by done.
  destruct (overlaps cw X Y) as [[i j]|] eqn:Hov; cbn [mbind result_bind];
    [|by apply IH].
  set (d1 := dict_replace d X (filter (supported i j dY) dX)).
  assert (words_reach cw d1) as Hreach1.
  { apply (words_reach_shrunk cw d); [done|]. intros x dx'. unfold d1.
    rewrite dict_get_replace. case_decide as Hx; [|by exists dx'].
    subst x. rewrite HdX. cbn. intros [= <-]. exists dX. split; [done|].
    by intros w [_ Hw]%list_elem_of_filter. }
  assert (dict_keys d1 = dict_keys d) as Hkeys1 by apply dict_keys_replace.
  assert (Forall (fun arc => arc.1 ∈ dict_keys d1 /\ arc.2 ∈ dict_keys d1) queue) as Hq1
    by (by rewrite Hkeys1).
  case_bool_decide; [|apply IH; [done | by rewrite Hkeys1 | done]].
  assert (dict_get d1 X = Some (filter (supported i j dY) dX)) as HgetX
    by (unfold d1; by rewrite dict_get_replace_eq, HdX).
  unfold dict_lookup. rewrite HgetX. cbn [mbind result_bind].
  case_decide; [done|]. apply IH; [done | by rewrite Hkeys1 |].
  apply Forall_app. split; [done|]. apply Forall_fmap, Forall_forall.
  intros Z [_ HZ]%list_elem_of_filter. cbn [fst snd compose]. rewrite Hkeys1.
  split; [|apply dict_get_is_Some; eauto].
  apply Hvars. by apply (neighbors_variables cw X).
Qed.

(** On a well-formed puzzle the propagation raises nothing, and leaves a
    node-consistent store with the variables of the puzzle. *)
Lemma propagated_runs :
  well_formed cw ->
  exists b d, propagated cw = Ok (b, d) /\ node_consistent d /\
    (forall v, v ∈ dict_keys d <-> v ∈ variables cw) /\
    (forall v dv, dict_get d v = Some dv -> dv ⊆ filter (fits v) (words cw)).
Proof.
  intros Hwf. unfold propagated.
  destruct (enforce_keys_spec (dict_keys (init_domains cw)) (init_domains cw))
    as (d1 & Hd1 & Hkeys1 & Hget1); [done|].
  fold (enforce_node_consistency (init_domains cw)) in Hd1.
  rewrite Hd1. cbn [mbind result_bind].
  assert (node_consistent d1) as Hnc1 by (by eapply enforce_node_consistent).
  assert (forall v, v ∈ dict_keys d1 <-> v ∈ variables cw) as Hvars1.
  { intros v. rewrite Hkeys1. apply init_domains_keys. }
  destruct (no_raise_Ok (ac3 cw d1 None)) as ([b d2] & Hac3).
  { apply ac3_returns. }
  { unfold ac3. apply ac3_loop_no_raise.
    - by apply node_consistent_reach.
    - intros v Hv. by apply Hvars1.
    - apply Forall_forall. intros [x y] (Hx & Hy & _)%elem_of_all_arcs. done. }
  exists b, d2. split; [done|]. unfold ac3 in Hac3.
  pose proof (ac3_loop_from_before cw _ _ _ _ _ Hac3) as Hfrom.
  split_and!.
  - by eapply node_consistent_shrunk.
  - intros v. apply ac3_loop_keys in Hac3. rewrite Hac3. apply Hvars1.
  - intros v dv Hdv. destruct (Hfrom v dv Hdv) as (dv1 & Hdv1 & Hsub).
    rewrite Hget1 in Hdv1. case_decide as Hin.
    + assert (dict_get (init_domains cw) v = Some (words cw)) as Hinit.
      { unfold init_domains. rewrite (dict_get_filled (fun _ => words cw)).
        rewrite decide_True; [done|]. by apply init_domains_keys. }
      rewrite Hinit in Hdv1. injection Hdv1 as <-. done.
    + apply dict_get_None in Hin. congruence.
Qed.








Lemma backtrack_empty_domain d X fuel :
  dict_get d X = Some [] ->
  backtrack cw (S fuel) d [] = Ok (None, []).
Proof.
  intros HX. cbn [backtrack].
  assert (assignment_complete d [] = false) as Hc.
  { destruct (assignment_complete d []) eqn:Hc; [|done].
    eapply (assignment_complete_true _ _ X) in Hc.
    - by apply elem_of_nil in Hc.
    - apply dict_get_is_Some. eauto. }
  destruct (select_unassigned_variable_spec cw d [])
    as (var & s & Hsel & _ & Hs & Hmin); [by apply assignment_complete_false|].
  assert (s = []) as ->.
  { apply nil_length_inv. specialize (Hmin X [] (not_elem_of_nil _) HX).
    simpl in Hmin. lia. }
  rewrite Hc, Hsel. cbn [mbind result_bind].
  unfold order_domain_values, dict_lookup. rewrite Hs. reflexivity.
Qed.

(** X15. On a well-formed puzzle with a variable for which the vocabulary
    has no word of its length, [solve()] returns [None]. *)
Theorem solve_without_candidates v :
  well_formed cw ->
  v ∈ variables cw ->
  (forall w, w ∈ words cw -> len w ≠ var_length v) ->
  solve cw = Ok None.
Proof.
  intros Hwf Hv Hnone.
  destruct (propagated_runs Hwf) as (b & d & Hprop & _ & Hkeys & Hsub).
  unfold solve. rewrite (solve_run_propagated cw b d Hprop). cbn [outcome].
  assert (v ∈ dict_keys d) as [dv Hdv]%dict_get_is_Some by (by apply Hkeys).
  assert (dv = []) as ->.
  { destruct dv as [|w dv]; [done|].
    assert (w ∈ filter (fits v) (words cw)) as [Hfit Hw]%list_elem_of_filter
      by (apply (Hsub v _ Hdv); left).
    unfold fits in Hfit. by destruct (Hnone w Hw). }
  unfold backtrack_fuel. by rewrite (backtrack_empty_domain d v).
Qed.
End WellFormed.

(** ** What [solve] returns *)

Section SolveResult.
Context (cw : Crossword).

(** After the propagation a domain holds words of the vocabulary that have
    the length of the variable. *)
Lemma propagated_from_vocabulary b d v dv :
  propagated cw = Ok (b, d) ->
  dict_get d v = Some dv -> dv ⊆ filter (fits v) (words cw).
Proof.
  unfold propagated. intros Hrun Hdv. inv_bind Hrun as d1 Hd1.
  destruct (enforce_keys_spec (dict_keys (init_domains cw)) (init_domains cw))
    as (d1' & Hd1' & _ & Hget1); [done|].
  unfold enforce_node_consistency in Hd1. assert (d1' = d1) as -> by congruence.
  unfold ac3 in Hrun.
  destruct (ac3_loop_from_before cw _ _ _ _ _ Hrun v dv Hdv) as (dv1 & Hdv1 & Hsub).
  rewrite Hget1 in Hdv1. case_decide as Hin.
  - assert (dict_get (init_domains cw) v = Some (words cw)) as Hinit.
    { unfold init_domains. rewrite (dict_get_filled (fun _ => words cw)).
      rewrite decide_True; [done|]. by apply init_domains_keys. }
    rewrite Hinit in Hdv1. by injection Hdv1 as <-.
  - apply dict_get_None in Hin. congruence.
Qed.

Lemma NoDup_keys_kept d :
  kept_by_assigning d (fun assignment : Assignment => NoDup (dict_keys assignment)).
Proof. intros assignment var val Hnd _ _. by apply dict_keys_set_NoDup. Qed.

(** X16. An assignment that [solve()] returns has exactly the variables of
    the puzzle as its keys, and each of its words is a word of the
    vocabulary. *)
Theorem solve_assigns_vocabulary (r : Assignment) :
  solve cw = Ok (Some r) ->
  NoDup (dict_keys r) /\
  (forall v, v ∈ dict_keys r <-> v ∈ variables cw) /\
  (forall v w, (v, w) ∈ r -> w ∈ words cw).
Proof.
  intros (b & d & a & Hprop & Hrun)%solve_run_outcome.
  assert (forall v, v ∈ dict_keys d <-> v ∈ variables cw) as Hkeys
    by (intros v; by eapply propagated_keys).
  assert (NoDup (dict_keys r)) as Hnd.
  { apply (backtrack_keeps cw (fun a : Assignment => NoDup (dict_keys a))
             _ _ _ _ _ (NoDup_keys_kept d) (NoDup_nil_2 : NoDup (dict_keys [])) Hrun). }
  apply backtrack_sound in Hrun as (_ & Hcompl & _ & Hfrom);
    [|intros v Hv; by apply Hkeys].
  cbn [fst snd] in *. specialize (Hfrom (Forall_nil_2 _)).
  unfold from_domains in Hfrom. rewrite Forall_forall in Hfrom.
  split_and!; [done| |].
  - intros v. split.
    + intros [w Hw]%elem_of_dict_keys. specialize (Hfrom _ Hw). cbn [fst snd] in Hfrom.
      destruct (dict_get d v) as [s|] eqn:Hs; [|done].
      apply Hkeys, dict_get_is_Some. eauto.
    + intros Hv. apply (assignment_complete_true d); [done|]. by apply Hkeys.
  - intros v w Hw. specialize (Hfrom _ Hw). cbn [fst snd] in Hfrom.
    destruct (dict_get d v) as [s|] eqn:Hs; [|done].
    apply (propagated_from_vocabulary _ _ _ _ Hprop Hs) in Hfrom.
    by apply list_elem_of_filter in Hfrom as [_ ?].
Qed.

(** X17. [solve()] returns an assignment only when, for every variable and
    each of its neighbors, all the words left in the domain of the neighbor
    after the propagation agree with the word of the variable at the
    overlap indices: a domain of the neighbor with two words that differ at
    the shared cell keeps [solve()] from returning an assignment. *)
Theorem solve_needs_unanimity (r : Assignment) :
  solve cw = Ok (Some r) ->
  exists b d, propagated cw = Ok (b, d) /\
    forall v, v ∈ variables cw -> unanimous cw d r v.
Proof.
  intros (b & d & a & Hprop & Hrun)%solve_run_outcome.
  assert (forall v, v ∈ dict_keys d <-> v ∈ variables cw) as Hkeys
    by (intros v; by eapply propagated_keys).
  exists b, d. split; [done|].
  apply backtrack_sound in Hrun as (_ & Hcompl & Hcons & _);
    [|intros v Hv; by apply Hkeys].
  cbn [fst snd] in *. intros v Hv.
  assert (v ∈ dict_keys r) as [w Hw]%elem_of_dict_keys.
  { apply (assignment_complete_true d); [done|]. by apply Hkeys. }
  destruct Hcons as [->|Hcons]; [by apply elem_of_nil in Hw|].
  apply consistent_unanimous in Hcons. rewrite Forall_forall in Hcons.
  apply (Hcons (v, w) Hw).
Qed.
End SolveResult.

(** ** The grid of letters *)

Lemma shape_blank height width : shape height width (blank_grid height width).
Proof.
  unfold shape, blank_grid. split; [apply length_replicate|].
  apply Forall_replicate, length_replicate.
Qed.

Lemma grid_get_blank height width i j :
  i < height -> j < width -> grid_get (blank_grid height width) i j = Some None.
Proof.
  intros Hi Hj. unfold grid_get, blank_grid.
  rewrite lookup_replicate_2 by done. by apply lookup_replicate_2.
Qed.

Lemma shape_lookup height width letters i :
  shape height width letters -> i < height ->
  exists row, letters !! i = Some row /\ length row = width.
Proof.
  intros [Hlen Hrows] Hi.
  destruct (lookup_lt_is_Some_2 letters i) as [row Hrow]; [lia|].
  exists row. split; [done|]. rewrite Forall_forall in Hrows.
  by eapply Hrows, list_elem_of_lookup_2.
Qed.

Lemma grid_set_spec height width letters i j c :
  shape height width letters ->
  if decide (i < height /\ j < width) then
    exists letters', grid_set letters i j c = Ok letters' /\
      shape height width letters' /\
      forall i' j', grid_get letters' i' j' =
        if decide (i' = i /\ j' = j) then Some (Some c) else grid_get letters i' j'
  else grid_set letters i j c = Raise IndexError.
Proof.
  intros Hshape. unfold grid_set. case_decide as Hin.
  - destruct Hin as [Hi Hj].
    destruct (shape_lookup _ _ _ _ Hshape Hi) as (row & Hrow & Hlen).
    rewrite Hrow. rewrite decide_True by lia. eexists. split; [done|].
    destruct Hshape as [Hh Hrows]. split.
    + split; [by rewrite length_insert|].
      apply Forall_insert; [done|]. by rewrite length_insert.
    + intros i' j'. unfold grid_get. rewrite list_lookup_insert.
      destruct (decide (i = i' /\ i < length letters)) as [[<- _]|Hne].
      * rewrite Hrow, list_lookup_insert.
        destruct (decide (j = j' /\ j < length row)) as [[<- _]|Hne].
        -- by rewrite decide_True.
        -- rewrite decide_False; [done|]. intros [_ ->]. apply Hne. split; [done|lia].
      * rewrite decide_False; [done|]. intros [-> _]. apply Hne. split; [done|lia].
  - destruct Hshape as [Hh Hrows].
    destruct (letters !! i) as [row|] eqn:Hrow; [|done].
    assert (i < height) by (rewrite <- Hh; by eapply lookup_lt_Some).
    assert (length row = width) as Hlen.
    { rewrite Forall_forall in Hrows. by eapply Hrows, list_elem_of_lookup_2. }
    rewrite decide_False; [done|]. lia.
Qed.

Lemma cell_injective variable k k' :
  cell_i variable k = cell_i variable k' ->
  cell_j variable k = cell_j variable k' -> k = k'.
Proof.
  unfold cell_i, cell_j. destruct (var_direction variable); repeat case_decide;
    try done; lia.
Qed.

Lemma write_letters_runs height width variable word ks letters :
  shape height width letters ->
  Forall (fun k => k < len word) ks ->
  if decide (Forall (fun k => cell_i variable k < height /\ cell_j variable k < width) ks)
  then
    exists letters', write_letters variable word ks letters = Ok letters' /\
      shape height width letters' /\
      forall i j,
        (forall k, k ∈ ks -> cell_i variable k = i -> cell_j variable k = j -> False) ->
        grid_get letters' i j = grid_get letters i j
  else write_letters variable word ks letters = Raise IndexError.
Proof.
  revert letters. induction ks as [|k ks IH]; intros letters Hshape Hks;
    cbn [write_letters].
  - rewrite decide_True by constructor. eauto.
  - apply Forall_cons in Hks as [Hk Hks].
    destruct (get_in_range word k Hk) as [c Hc]. unfold str_index. rewrite Hc.
    cbn [mbind result_bind].
    pose proof (grid_set_spec height width letters (cell_i variable k)
                  (cell_j variable k) c Hshape) as Hset.
    destruct (decide (cell_i variable k < height /\ cell_j variable k < width))
      as [Hin|Hout].
    + destruct Hset as (letters1 & -> & Hshape1 & Hget1). cbn [mbind result_bind].
      specialize (IH letters1 Hshape1 Hks).
      destruct (decide (Forall _ ks)) as [Hall|Hnot].
      * rewrite decide_True by (by constructor).
        destruct IH as (letters' & -> & Hshape' & Hget'). eexists. split; [done|].
        split; [done|]. intros i j Hfree. rewrite Hget'.
        -- rewrite Hget1. rewrite decide_False; [done|].
           intros [-> ->]. eapply Hfree; [left|done..].
        -- intros k' Hk'. apply Hfree. by right.
      * rewrite decide_False; [done|]. by intros [_ ?]%Forall_cons.
    + rewrite Hset. rewrite decide_False; [done|]. by intros [? _]%Forall_cons.
Qed.

Lemma write_letters_cell height width variable word ks letters letters' k c :
  shape height width letters ->
  Forall (fun k => k < len word) ks ->
  write_letters variable word ks letters = Ok letters' ->
  k ∈ ks -> String.get k word = Some c ->
  grid_get letters' (cell_i variable k) (cell_j variable k) = Some (Some c).
Proof.
  revert letters. induction ks as [|k0 ks IH]; intros letters Hshape Hks Hrun Hk Hc;
    [by apply elem_of_nil in Hk|].
  apply Forall_cons in Hks as [Hk0 Hks]. cbn [write_letters] in Hrun.
  inv_bind Hrun as c0 Hc0. inv_bind Hrun as letters1 Hset.
  pose proof (grid_set_spec height width letters (cell_i variable k0)
                (cell_j variable k0) c0 Hshape) as Hspec.
  case_decide as Hin; [|congruence].
  destruct Hspec as (letters1' & Hset' & Hshape1 & Hget1).
  assert (letters1' = letters1) as -> by congruence.
  destruct (decide (k ∈ ks)) as [Hin'|Hnin]; [by eapply IH|].
  apply elem_of_cons in Hk as [->|]; [|done].
  pose proof (write_letters_runs height width variable word ks letters1 Hshape1 Hks)
    as Hruns.
  case_decide; [|congruence]. destruct Hruns as (letters2 & Hrun2 & _ & Hget2).
  assert (letters2 = letters') as -> by congruence.
  rewrite Hget2.
  - rewrite Hget1, decide_True by done. unfold str_index in Hc0. rewrite Hc in Hc0.
    by injection Hc0 as <-.
  - intros k' Hk' Hi Hj. apply Hnin.
    by rewrite <- (cell_injective variable k' k0 Hi Hj).
Qed.

Lemma seq_in_range word : Forall (fun k => k < len word) (seq 0 (len word)).
Proof. apply Forall_forall. intros k Hk%elem_of_seq. lia. Qed.

Lemma not_covered kv i j :
  ¬ covers kv i j ->
  forall k, k ∈ seq 0 (len kv.2) -> cell_i kv.1 k = i -> cell_j kv.1 k = j -> False.
Proof.
  intros Hfree k Hk%elem_of_seq Hi Hj. apply Hfree. exists k. split; [lia|done].
Qed.

Lemma write_words_runs height width items letters :
  shape height width letters ->
  if decide (Forall (in_grid height width) items) then
    exists letters', write_words items letters = Ok letters' /\
      shape height width letters' /\
      forall i j, (forall kv, kv ∈ items -> ¬ covers kv i j) ->
        grid_get letters' i j = grid_get letters i j
  else write_words items letters = Raise IndexError.
Proof.
  revert letters. induction items as [|[variable word] items IH]; intros letters Hshape;
    cbn [write_words].
  - rewrite decide_True by constructor. eauto.
  - pose proof (write_letters_runs height width variable word (seq 0 (len word))
                  letters Hshape (seq_in_range word)) as Hword.
    destruct (decide (Forall (fun k => cell_i variable k < height /\
                                      cell_j variable k < width)
                             (seq 0 (len word)))) as [Hin|Hout].
    + destruct Hword as (letters1 & -> & Hshape1 & Hget1). cbn [mbind result_bind].
      specialize (IH letters1 Hshape1).
      destruct (decide (Forall (in_grid height width) items)) as [Hall|Hnot].
      * rewrite decide_True by (by constructor).
        destruct IH as (letters' & -> & Hshape' & Hget'). eexists. split; [done|].
        split; [done|]. intros i j Hfree. rewrite Hget'.
        -- apply Hget1. apply (not_covered (variable, word)). apply Hfree. left.
        -- intros kv Hkv. apply Hfree. by right.
      * rewrite decide_False; [done|]. by intros [_ ?]%Forall_cons.
    + rewrite Hword. rewrite decide_False; [done|]. by intros [? _]%Forall_cons.
Qed.

(** X18. [letter_grid] returns a grid exactly when every letter of every
    assigned word falls in the grid, and raises [IndexError] otherwise;
    the grid it returns has [height] rows of [width] cells. *)
Theorem letter_grid_bounds height width assignment :
  ((exists letters, letter_grid height width assignment = Ok letters) <->
   Forall (in_grid height width) assignment) /\
  (letter_grid height width assignment = Raise IndexError <->
   ¬ Forall (in_grid height width) assignment) /\
  (forall letters, letter_grid height width assignment = Ok letters ->
   shape height width letters).
Proof.
  unfold letter_grid.
  pose proof (write_words_runs height width assignment _ (shape_blank height width))
    as Hruns.
  destruct (decide (Forall (in_grid height width) assignment)) as [Hall|Hnot].
  - destruct Hruns as (letters & Hrun & Hshape & _). rewrite Hrun. split_and!.
    + split; eauto.
    + split; [discriminate | done].
    + by intros ? [= <-].
  - rewrite Hruns. split_and!.
    + split; [by intros [? ?] | done].
    + done.
    + discriminate.
Qed.

(** X19. In the grid that [letter_grid] returns, a cell that no assigned
    word covers holds [None], and a covered cell holds the letter of the
    last entry of the assignment that covers it. *)
Theorem letter_grid_cells height width assignment letters :
  letter_grid height width assignment = Ok letters ->
  (forall i j, i < height -> j < width ->
     (forall kv, kv ∈ assignment -> ¬ covers kv i j) ->
     grid_get letters i j = Some None) /\
  (forall before variable word after k c,
     assignment = before ++ (variable, word) :: after ->
     String.get k word = Some c ->
     (forall kv, kv ∈ after ->
        ¬ covers kv (cell_i variable k) (cell_j variable k)) ->
     grid_get letters (cell_i variable k) (cell_j variable k) = Some (Some c)).
Proof.
  unfold letter_grid. intros Hrun. split.
  - intros i j Hi Hj Hfree.
    pose proof (write_words_runs height width assignment _ (shape_blank height width))
      as Hruns.
    case_decide; [|congruence]. destruct Hruns as (letters' & Hrun' & _ & Hget).
    assert (letters' = letters) as -> by congruence.
    rewrite (Hget i j Hfree). by apply grid_get_blank.
  - intros before variable word after k c -> Hc Hfree.
    revert Hrun. generalize (shape_blank height width).
    generalize (blank_grid height width). intros letters0.
    revert letters0. induction before as [|[v0 w0] before IH]; intros letters0 Hshape Hrun.
    + cbn [app write_words] in Hrun. inv_bind Hrun as letters1 Hword.
      pose proof (write_letters_runs height width variable word (seq 0 (len word))
                    letters0 Hshape (seq_in_range word)) as Hruns.
      case_decide; [|congruence]. destruct Hruns as (letters1' & Hword' & Hshape1 & _).
      assert (letters1' = letters1) as -> by congruence.
      pose proof (write_words_runs height width after letters1 Hshape1) as Hrest.
      case_decide; [|congruence]. destruct Hrest as (letters' & Hrun' & _ & Hget).
      assert (letters' = letters) as -> by congruence.
      rewrite (Hget _ _ Hfree).
      eapply write_letters_cell; [exact Hshape|apply seq_in_range|exact Hword| |exact Hc].
      apply elem_of_seq. split; [lia|]. cbn.
      destruct (decide (k < len word)) as [|Hge]; [done|].
      assert (String.get k word = None) as Hnone.
      { clear -Hge. unfold len in Hge. revert k Hge.
        induction word as [|a word IHw]; intros k Hge; [by destruct k|].
        destruct k as [|k]; cbn in *; [lia|]. apply IHw. lia. }
      congruence.
    + cbn [app write_words] in Hrun. inv_bind Hrun as letters1 Hword.
      pose proof (write_letters_runs height width v0 w0 (seq 0 (len w0))
                    letters0 Hshape (seq_in_range w0)) as Hruns.
      case_decide; [|congruence]. destruct Hruns as (letters1' & Hword' & Hshape1 & _).
      assert (letters1' = letters1) as -> by congruence.
      by eapply IH.
Qed.

(** ** The further properties on the two-slot puzzle *)

Lemma corner_overlap_cases (vocabulary : list Word) x y i j :
  overlaps (corner vocabulary) x y = Some (i, j) ->
  (x = slot_a /\ y = slot_d /\ i = 1 /\ j = 0) \/
  (x = slot_d /\ y = slot_a /\ i = 0 /\ j = 1).
Proof.
  cbn. unfold corner_overlaps.
  destruct (decide (x = slot_a /\ y = slot_d)) as [[-> ->]|Had].
  - intros [= <- <-]. by left.
  - destruct (decide (x = slot_d /\ y = slot_a)) as [[-> ->]|Hda]; [|done].
    intros [= <- <-]. by right.
Qed.

Lemma corner_well_formed (vocabulary : list Word) : well_formed (corner vocabulary).
Proof.
  split; [apply corner_symmetric|].
  intros x y i j [(-> & -> & -> & ->)|(-> & -> & -> & ->)]%corner_overlap_cases;
    cbn; lia.
Qed.

Lemma corner_words_reach (vocabulary : list Word) (d : Domains) :
  Forall (fun kv => Forall (fun w => 2 <= len w) kv.2) d ->
  words_reach (corner vocabulary) d.
Proof.
  intros Hd x y i j Hov. rewrite Forall_forall in Hd.
  assert (i < 2 /\ j < 2) as [Hi Hj]
    by (apply corner_overlap_cases in Hov as [(_ & _ & -> & ->)|(_ & _ & -> & ->)]; lia).
  split; intros s Hs%dict_get_Some_elem; specialize (Hd _ Hs); cbn [snd] in Hd;
    eapply Forall_impl; try exact Hd; cbn; intros w Hw; lia.
Qed.

Lemma corner_arc_consistent (vocabulary : list Word) (d : Domains) da dd :
  dict_get d slot_a = Some da -> dict_get d slot_d = Some dd ->
  Forall (supported 1 0 dd) da -> Forall (supported 0 1 da) dd ->
  forall x y, x ≠ y -> arc_consistent (corner vocabulary) d x y.
Proof.
  intros Ha Hd Had Hda x y _ i j dx dy
    [(-> & -> & -> & ->)|(-> & -> & -> & ->)]%corner_overlap_cases Hdx Hdy;
    congruence.
Qed.



Lemma select_unassigned_variable_order_witness :
  let cw := corner ["BB"; "AB"] in
  let d := [(slot_a, ["BB"; "AB"]); (slot_d, ["BB"])] in
  exists var s, select_unassigned_variable cw d [] = Ok var /\
    (var ∉ dict_keys ([] : Assignment)) /\
    dict_get d var = Some s /\
    forall v s', v ∉ dict_keys ([] : Assignment) -> dict_get d v = Some s' ->
      length s <= length s' /\
      (length s' = length s ->
       length (neighbors cw v) <= length (neighbors cw var)).
Proof.
  apply (select_unassigned_variable_order (corner ["BB"; "AB"])
           [(slot_a, ["BB"; "AB"]); (slot_d, ["BB"])] []).
  exists slot_d. split; by_compute.
Defined.

Lemma select_unassigned_variable_complete_witness :
  select_unassigned_variable (corner ["AB"; "BC"])
    [(slot_a, ["AB"]); (slot_d, ["BC"])] [(slot_a, "AB"); (slot_d, "BC")]
  = Raise ValueError.
Proof.
  apply (select_unassigned_variable_complete (corner ["AB"; "BC"])
           [(slot_a, ["AB"]); (slot_d, ["BC"])] [(slot_a, "AB"); (slot_d, "BC")]).
  intros v Hv. exact Hv.
Defined.

Lemma enforce_node_consistency_idempotent_witness :
  let d := [(slot_a, ["AB"; "ABC"; "BC"]); (slot_d, ["A"; "BC"])] in
  let d' := [(slot_a, ["AB"; "BC"]); (slot_d, ["BC"])] in
  enforce_node_consistency d = Ok d' /\ enforce_node_consistency d' = Ok d'.
Proof.
  split; [vm_compute; reflexivity|].
  apply (enforce_node_consistency_idempotent
           [(slot_a, ["AB"; "ABC"; "BC"]); (slot_d, ["A"; "BC"])]
           [(slot_a, ["AB"; "BC"]); (slot_d, ["BC"])]).
  vm_compute. reflexivity.
Defined.



Lemma ac3_fixed_point_witness :
  let cw := corner ["BB"; "AB"] in
  let d := [(slot_a, ["BB"; "AB"]); (slot_d, ["BB"])] in
  ac3 cw d None = Ok (true, d).
Proof.
  apply (ac3_fixed_point (corner ["BB"; "AB"])
           [(slot_a, ["BB"; "AB"]); (slot_d, ["BB"])]).
  - apply corner_words_reach. by_compute.
  - apply (corner_arc_consistent _ _ ["BB"; "AB"] ["BB"]);
      [reflexivity..|by_compute|by_compute].
Defined.

Lemma ac3_idempotent_witness :
  let cw := corner ["BB"; "AB"] in
  let d := [(slot_a, ["BB"; "AB"]); (slot_d, ["BB"; "AB"])] in
  let d' := [(slot_a, ["BB"; "AB"]); (slot_d, ["BB"])] in
  ac3 cw d None = Ok (true, d') /\ ac3 cw d' None = Ok (true, d').
Proof.
  split; [vm_compute; reflexivity|].
  apply (ac3_idempotent (corner ["BB"; "AB"])
           [(slot_a, ["BB"; "AB"]); (slot_d, ["BB"; "AB"])]
           [(slot_a, ["BB"; "AB"]); (slot_d, ["BB"])]).
  - apply corner_symmetric.
  - intros v Hv. exact Hv.
  - apply corner_words_reach. by_compute.
  - vm_compute. reflexivity.
Defined.

Lemma backtrack_extends_witness :
  let cw := corner ["AB"; "BC"] in
  let d := [(slot_a, ["AB"]); (slot_d, ["BC"])] in
  let r := [(slot_a, "AB"); (slot_d, "BC")] in
  backtrack cw 2 d [(slot_a, "AB")] = Ok (Some r, r) /\
  r = r /\ exists added, r = [(slot_a, "AB")] ++ added.
Proof.
  split; [vm_compute; reflexivity|].
  apply (backtrack_extends (corner ["AB"; "BC"]) 2
           [(slot_a, ["AB"]); (slot_d, ["BC"])] [(slot_a, "AB")]
           [(slot_a, "AB"); (slot_d, "BC")] [(slot_a, "AB"); (slot_d, "BC")]).
  vm_compute. reflexivity.
Defined.


Lemma solve_without_candidates_witness :
  solve (corner ["ABC"; "B"]) = Ok None.
Proof.
  apply (solve_without_candidates (corner ["ABC"; "B"]) slot_a).
  - apply corner_well_formed.
  - by_compute.
  - intros w Hw. revert w Hw. apply Forall_forall. by_compute.
Defined.

Lemma solve_assigns_vocabulary_witness :
  let cw := corner ["AB"; "BC"] in
  let r := [(slot_a, "AB"); (slot_d, "BC")] in
  solve cw = Ok (Some r) /\
  NoDup (dict_keys r) /\
  (forall v, v ∈ dict_keys r <-> v ∈ variables cw) /\
  (forall v w, (v, w) ∈ r -> w ∈ words cw).
Proof.
  split; [vm_compute; reflexivity|].
  apply (solve_assigns_vocabulary (corner ["AB"; "BC"])
           [(slot_a, "AB"); (slot_d, "BC")]).
  vm_compute. reflexivity.
Defined.

Lemma solve_needs_unanimity_witness :
  let cw := corner ["AB"; "BC"] in
  let r := [(slot_a, "AB"); (slot_d, "BC")] in
  solve cw = Ok (Some r) /\
  exists b d, propagated cw = Ok (b, d) /\
    forall v, v ∈ variables cw -> unanimous cw d r v.
Proof.
  split; [vm_compute; reflexivity|].
  apply (solve_needs_unanimity (corner ["AB"; "BC"])
           [(slot_a, "AB"); (slot_d, "BC")]).
  vm_compute. reflexivity.
Defined.

Lemma letter_grid_cells_witness :
  let assignment := [(slot_a, "AB"); (slot_d, "CD")] in
  let letters := [[Some "A"%char; Some "C"%char]; [None; Some "D"%char]] in
  letter_grid 2 2 assignment = Ok letters /\
  (forall i j, i < 2 -> j < 2 ->
     (forall kv, kv ∈ assignment -> ¬ covers kv i j) ->
     grid_get letters i j = Some None) /\
  (forall before variable word after k c,
     assignment = before ++ (variable, word) :: after ->
     String.get k word = Some c ->
     (forall kv, kv ∈ after ->
        ¬ covers kv (cell_i variable k) (cell_j variable k)) ->
     grid_get letters (cell_i variable k) (cell_j variable k) = Some (Some c)).
Proof.
  split; [vm_compute; reflexivity|].
  apply (letter_grid_cells 2 2 [(slot_a, "AB"); (slot_d, "CD")]
           [[Some "A"%char; Some "C"%char]; [None; Some "D"%char]]).
  vm_compute. reflexivity.
Defined.
